(** * Geometric multigrid and PFAS solvers for obstacle problems

    A shallow embedding of [obstacle/multigrid/multigrid.py]:
    [compute_Fomega], [multigrid_solver] and [linear_pfas_solver].

    Modelling conventions.
    - numpy [float64] scalars are Rocq's primitive binary64 floats, so that
      division by zero, NaN and comparisons behave as they do in numpy.
    - A one-dimensional [ndarray] is a [list float].  Elementwise arithmetic
      is modelled on conformable operands (the case in which numpy neither
      raises nor broadcasts).
    - Python exceptions are the [Raise] outcomes of the [outcome] monad; a
      loop whose exit depends on the numerical behaviour of a smoother is
      given a sweep budget and runs [OutOfFuel] when the budget is spent.
    - An in-place update of an array argument ([u] in [lvl_solve] and in the
      smoothers) is modelled by returning the new contents of that array.
      Where a caller-visible array is written through an alias (the
      right-hand side [b] of [linear_pfas_solver.solve]) the arrays live in
      an explicit [heap].
    - scipy's sparse matrices, the norms of [numpy.linalg], the float power
      and the repository's Gauss-Seidel module [obstacle.multigrid.GS] are
      collaborators of this file and are collected in the class [SciPy].
    - Each of the two [solve] methods is embedded branch by branch:
      [solve_iterative] is the branch [cycle != 'fmg'], [solve_fmg] the
      branch [cycle == 'fmg']; printing and plotting are left out.
    - Of the callers, the boundary points of
      [box_obstacle_problem.discretize] ([obstacle.py]) and the grid sizes of
      the hierarchy built by [main] ([dam_example.py]) are embedded. *)

From Stdlib Require Import ZArith Floats String Lia Sorted.
From stdpp Require Import base list gmap strings.

Set Warnings "-inexact-float,-register-all".
Open Scope float_scope.

(** ** Outcomes of Python code *)

Inductive exn : Set :=
| IndexError
| TypeError
| UnboundLocalError
| ZeroDivisionError.

Inductive outcome (X : Type) : Type :=
| Ok (x : X)
| Raise (e : exn)
| OutOfFuel.
Arguments Ok {X} x.
Arguments Raise {X} e.
Arguments OutOfFuel {X}.

#[global] Instance outcome_ret : MRet outcome := fun _ x => Ok x.
#[global] Instance outcome_bind : MBind outcome := fun _ _ f m =>
  match m with
  | Ok x => f x
  | Raise e => Raise e
  | OutOfFuel => OutOfFuel
  end.

(** [l[i]] for a Python list and a non-negative index. *)
Definition getitem {X} (l : list X) (i : nat) : outcome X :=
  match l !! i with
  | Some x => Ok x
  | None => Raise IndexError
  end.

(** [l[-1]]. *)
Definition getitem_last {X} (l : list X) : outcome X :=
  match last l with
  | Some x => Ok x
  | None => Raise IndexError
  end.

(** ** numpy arrays *)

Abbreviation vec := (list float).

#[global] Instance float_inhabited : Inhabited float := populate 0%float.

Module np.

Definition zeros (n : nat) : vec := replicate n 0.
Definition zeros_like (v : vec) : vec := zeros (length v).

(** [a - b] and [a + b] on arrays. *)
Definition sub (a b : vec) : vec := zip_with PrimFloat.sub a b.
Definition add (a b : vec) : vec := zip_with PrimFloat.add a b.

(** [a - c] for a scalar [c]. *)
Definition sub_scalar (a : vec) (c : float) : vec := map (fun x => x - c) a.

(** One element of [np.minimum]: the smaller operand, a NaN first operand
    being propagated. *)
Definition minimum1 (x y : float) : float :=
  if (x <? y) || is_nan x then x else y.

(** [np.minimum(a, c)] for a scalar [c]. *)
Definition minimum (a : vec) (c : float) : vec :=
  map (fun x => minimum1 x c) a.

(** [a > c] and [a < c]: boolean arrays. *)
Definition gt (a : vec) (c : float) : list bool := map (fun x => c <? x) a.
Definition lt (a : vec) (c : float) : list bool := map (fun x => x <? c) a.

(** [m1 & m2]. *)
Definition band (m1 m2 : list bool) : list bool := zip_with andb m1 m2.

(** [a[m]] for a boolean array [m]: the selected entries, packed. *)
Fixpoint mask_select {X} (a : list X) (m : list bool) : list X :=
  match a, m with
  | x :: a', true :: m' => x :: mask_select a' m'
  | _ :: a', false :: m' => mask_select a' m'
  | _, _ => []
  end.

(** [a[m] = vals] for a boolean array [m] and an array [vals]: the
    selected positions receive the entries of [vals] in order. *)
Fixpoint mask_assign (a : vec) (m : list bool) (vals : vec) : vec :=
  match a, m with
  | x :: a', true :: m' =>
      match vals with
      | v :: vals' => v :: mask_assign a' m' vals'
      | [] => x :: mask_assign a' m' []
      end
  | x :: a', false :: m' => x :: mask_assign a' m' vals
  | _, _ => a
  end.

(** [a[m] = c] for a boolean array [m] and a scalar [c]. *)
Definition mask_fill (a : vec) (m : list bool) (c : float) : vec :=
  zip_with (fun x (sel : bool) => if sel then c else x) a m.

(** [a[idx] = c] for a list of integer indices: [IndexError] when an
    index is out of bounds, and then nothing is written. *)
Definition index_fill (a : vec) (idx : list nat) (c : float) : outcome vec :=
  if forallb (fun i => i <? length a)%nat idx
  then Ok (foldr (fun i acc => <[i := c]> acc) a idx)
  else Raise IndexError.

(** [np.arange(n)]. *)
Definition arange (n : nat) : list nat := seq 0 n.

(** An integer used in float arithmetic. *)
Definition of_nat (n : nat) : float := of_uint63 (Uint63.of_Z (Z.of_nat n)).

End np.

(** ** The merit function (lines 202-206) *)

Definition compute_Fomega (x F : vec) : outcome vec :=
  let Fomega := np.minimum F 0.0 in
  let bool_array := np.gt x 1e-16 in
  if decide (length bool_array = length F)
  then Ok (np.mask_assign Fomega bool_array (np.mask_select F bool_array))
  else Raise IndexError.

Close Scope float_scope.

(** ** Collaborators *)

Class SciPy : Type := {
  (** [scipy.sparse] matrices *)
  spmatrix : Type;
  (** [A.dot(x)] for an array [x] *)
  dot : spmatrix -> vec -> vec;
  (** [A.dot(B)] for a sparse [B] *)
  matmul : spmatrix -> spmatrix -> spmatrix;
  (** [A + B] and [-A] *)
  matadd : spmatrix -> spmatrix -> spmatrix;
  matneg : spmatrix -> spmatrix;
  (** [A.shape] *)
  shape : spmatrix -> nat * nat;
  (** [scipy.sparse.diags(d, 0, shape=s, format='csr')] *)
  diags : vec -> nat * nat -> spmatrix;
  (** [np.linalg.norm(x)] and [np.linalg.norm(x, np.inf)] *)
  norm : vec -> float;
  norm_inf : vec -> float;
  (** [x ** y] on floats *)
  power : float -> float -> float;
  (** [scipy.sparse.linalg.spsolve(A, b)] *)
  spsolve : spmatrix -> vec -> vec;
  (** [obstacle.multigrid.GS.gs(A, u, b, maxiters=...)]: the new contents
      of [u], which the source updates in place *)
  gs : spmatrix -> vec -> vec -> option nat -> vec;
}.

(** ** The hierarchy *)

Section Hierarchy.
Context `{SciPy}.

(** The [level] struct (lines 157-199), with the operators already built.
    The geometric fields ([bounds], [hx], [hy]) play no part in the
    solvers and are left out. *)
Record level : Type := Level {
  mx : nat;
  my : nat;
  A : spmatrix;
  R : spmatrix;
  P : spmatrix;
  bndry_pts : list nat;
}.

Definition set_A (a : spmatrix) (l : level) : level :=
  {| mx := mx l; my := my l; A := a; R := R l; P := P l;
     bndry_pts := bndry_pts l |}.

(** A smoother [(A, u, b, maxiters=...)]: the new contents of [u]. *)
Definition smoother_t : Type := spmatrix -> vec -> vec -> option nat -> vec.

(** [for i in range(n): smoother(A, u, b, ...)]. *)
Definition sweeps (smoother : smoother_t) (n : nat) (a : spmatrix)
    (b : vec) (maxiters : option nat) (u : vec) : vec :=
  Nat.iter n (fun u => smoother a u b maxiters) u.

(** A record of what one call of [lvl_solve] did: its arguments, the
    contents of [u] on return and, in order, the calls it made itself.
    This is a ghost result: the source does not build it. *)
Inductive visit : Type :=
| Visit (lvl : nat) (cycle : string) (u_in b_in u_out : vec)
        (inner : list visit)
| CoarseSolve (a : spmatrix) (b_in u_out : vec)
| CoarseRelax (a : spmatrix) (u_in b_in u_out : vec).






(** Everything a level holds besides its operator [A]. *)
Definition transfer (l : level) : nat * nat * spmatrix * spmatrix * list nat :=
  (mx l, my l, R l, P l, bndry_pts l).

(** [blist.append(self.levels[k].R.dot(blist[-1]))], the body of the loop
    with which both [solve] methods begin their branch [cycle == 'fmg']. *)
Definition restrict_step (levels : list level) (k : nat) (blist : list vec)
    : outcome (list vec) :=
  lev ← getitem levels k;
  b_last ← getitem_last blist;
  Ok (blist ++ [dot (R lev) b_last]).

End Hierarchy.

(** ** [multigrid_solver] (lines 8-151) *)

Module MG.
Section Solver.
Context `{SciPy}.

(** [self_level] is the index in [levels] of the level object that
    [self.level] refers to. *)
Record multigrid_solver : Type := Build {
  levels : list level;
  coarse_solver : spmatrix -> vec -> vec;
  coarse_mx : nat;
  coarse_my : nat;
  self_level : nat;
  smoother : smoother_t;
  residuals : vec;
  diagnostics : list string;
}.

Definition set_self_level (i : nat) (s : multigrid_solver) :=
  {| levels := levels s; coarse_solver := coarse_solver s;
     coarse_mx := coarse_mx s; coarse_my := coarse_my s;
     self_level := i; smoother := smoother s;
     residuals := residuals s; diagnostics := diagnostics s |}.

Definition append_residual (r : float) (s : multigrid_solver) :=
  {| levels := levels s; coarse_solver := coarse_solver s;
     coarse_mx := coarse_mx s; coarse_my := coarse_my s;
     self_level := self_level s; smoother := smoother s;
     residuals := residuals s ++ [r]; diagnostics := diagnostics s |}.

(** [__init__] (lines 44-53): [self.levels[0]] is the only thing that can
    fail. *)
Definition init (levels : list level) (coarse_mx coarse_my : nat)
    (smoother : smoother_t) (coarse_solver : spmatrix -> vec -> vec)
    (diagnostics : list string) : outcome multigrid_solver :=
  _ ← getitem levels 0;
  Ok {| levels := levels; coarse_solver := coarse_solver;
        coarse_mx := coarse_mx; coarse_my := coarse_my;
        self_level := 0; smoother := smoother;
        residuals := []; diagnostics := diagnostics |}.

(** [lvl_solve] (lines 55-98).  [d] is the number of levels from [lvl]
    on: with none left, [self.levels[lvl]] on line 57 raises. *)
Fixpoint lvl_solve_from (d : nat) (self : multigrid_solver) (lvl : nat)
    (u b : vec) (cycle : string) (smoothing_iters : nat)
    : outcome (vec * visit) :=
  match d with
  | 0 => Raise IndexError
  | S d' =>
    lev ← getitem (levels self) lvl;
    let u1 := sweeps (smoother self) smoothing_iters (A lev) b (Some 1) u in
    let r := np.sub b (dot (A lev) u1) in
    let coarse_b := dot (R lev) r in
    '(coarse_u, inner) ←
      (if (Z.of_nat lvl <? Z.of_nat (length (levels self)) - 2)%Z then
         let coarse_u := np.zeros_like coarse_b in
         if String.eqb cycle "W" then
           '(cu1, v1) ← lvl_solve_from d' self (lvl + 1) coarse_u coarse_b cycle 1;
           '(cu2, v2) ← lvl_solve_from d' self (lvl + 1) cu1 coarse_b cycle 1;
           Ok (cu2, [v1; v2])
         else if String.eqb cycle "V" then
           '(cu1, v1) ← lvl_solve_from d' self (lvl + 1) coarse_u coarse_b cycle 1;
           Ok (cu1, [v1])
         else if String.eqb cycle "FV" then
           '(cu1, v1) ← lvl_solve_from d' self (lvl + 1) coarse_u coarse_b cycle 1;
           '(cu2, v2) ← lvl_solve_from d' self (lvl + 1) cu1 coarse_b "V" 1;
           Ok (cu2, [v1; v2])
         else if String.eqb cycle "FW" then
           '(cu1, v1) ← lvl_solve_from d' self (lvl + 1) coarse_u coarse_b cycle 1;
           '(cu2, v2) ← lvl_solve_from d' self (lvl + 1) cu1 coarse_b "W" 1;
           Ok (cu2, [v1; v2])
         else Ok (coarse_u, [])
       else
         coarsest ← getitem_last (levels self);
         let coarse_u := coarse_solver self (A coarsest) coarse_b in
         Ok (coarse_u, [CoarseSolve (A coarsest) coarse_b coarse_u]));
    nxt ← getitem (levels self) (lvl + 1);
    let u2 := np.add u1 (dot (P nxt) coarse_u) in
    let u3 := sweeps (smoother self) smoothing_iters (A lev) b None u2 in
    Ok (u3, Visit lvl cycle u b u3 inner)
  end.

Definition lvl_solve (self : multigrid_solver) (lvl : nat) (u b : vec)
    (cycle : string) (smoothing_iters : nat) : outcome (vec * visit) :=
  lvl_solve_from (length (levels self) - lvl) self lvl u b cycle
    smoothing_iters.

(** The result of [solve]: the solver with its updated attributes, the
    returned array, the final value of [z] and the visits of the cycles
    that ran. *)
Record run : Type := Run {
  run_self : multigrid_solver;
  run_u : vec;
  run_z : nat;
  run_cycles : list visit;
}.

(** The loop of lines 124-128, with [n = maxiters - z] iterations left.
    A successful [lvl_solve(0, ...)] leaves [self.level = self.levels[0]]
    (line 95). *)
Fixpoint solve_loop (n : nat) (self : multigrid_solver) (b u : vec)
    (cycle : string) (tol normb : float) (smoothing_iters z : nat)
    (log : list visit) : outcome run :=
  last_res ← getitem_last (residuals self);
  match n with
  | S n' =>
    if (tol <? last_res / normb)%float then
      '(u', v) ← lvl_solve self 0 u b cycle smoothing_iters;
      let self := set_self_level 0 self in
      lev ← getitem (levels self) (self_level self);
      let self :=
        append_residual (norm_inf (np.sub b (dot (A lev) u'))) self in
      solve_loop n' self b u' cycle tol normb smoothing_iters (z + 1)
        (log ++ [v])
    else Ok (Run self u z log)
  | 0 => Ok (Run self u z log)
  end.

(** The branch [cycle != 'fmg'] of [solve] (lines 117-132). *)
Definition solve_iterative (self : multigrid_solver) (b : vec)
    (u0 : option vec) (cycle : string) (tol : float)
    (maxiters smoothing_iters : nat) : outcome run :=
  let u0 := match u0 with None => np.zeros_like b | Some v => v end in
  let u := u0 in
  lev ← getitem (levels self) (self_level self);
  let self := append_residual (norm_inf (np.sub b (dot (A lev) u))) self in
  let z := 0%nat in
  let normb := norm b in
  solve_loop maxiters self b u cycle tol normb smoothing_iters z [].

End Solver.
End MG.

(** ** Arrays that are shared by reference *)

(** Array objects live in a heap; a Python name that is bound to an array
    holds its location.  [alloc] is what [np.array(x)], [x.copy()] and every
    function that returns a new array do. *)
Abbreviation loc := nat.
Abbreviation heap := (list vec).

Definition alloc (v : vec) (h : heap) : loc * heap := (length h, h ++ [v]).
Definition load (l : loc) (h : heap) : vec := h !!! l.
Definition store (l : loc) (v : vec) (h : heap) : heap := <[l := v]> h.

(** The heap after one pass: the array bound to [b] has been overwritten,
    then two arrays have been allocated (the new [u] and the new [b]) and
    the first of them has been overwritten. *)
Definition heap_after_pass (h1 : heap) (fb : loc) (zeroed unew uclamp : vec)
    (b1l : loc) : heap :=
  let h2 := store fb zeroed h1 in
  let h4 := store (length h2) uclamp (h2 ++ [unew]) in
  h4 ++ [load b1l h4].

(** [for i in idx: body], threading the state and stopping at the first
    exception. *)
Fixpoint for_each {S : Type} (body : nat -> S -> outcome S) (idx : list nat)
    (s : S) : outcome S :=
  match idx with
  | [] => Ok s
  | i :: idx' => s' ← body i s; for_each body idx' s'
  end.

(** The division of two Python floats. *)
Definition py_div (x y : float) : outcome float :=
  if (y =? 0)%float then Raise ZeroDivisionError else Ok (x / y)%float.

(** [dst[idx] = src[idx]] for a list of integer indices. *)
Definition index_copy (dst : vec) (idx : list nat) (src : vec) : outcome vec :=
  if forallb (fun i => (i <? length dst)%nat && (i <? length src)%nat) idx
  then Ok (foldr (fun i acc => <[i := src !!! i]> acc) dst idx)
  else Raise IndexError.

(** The argument [u0] of [linear_pfas_solver.solve], and the value of the
    name [u0] once the initial guess has been resolved. *)
Inductive u0_arg : Type :=
| U0None
| U0Array (v : vec)
| U0Str (s : string).

(** ** [multigrid_solver.solve], branch [cycle == 'fmg'] (lines 134-151) *)

Module FMG.
Section Solver.
Context `{SciPy}.

(** The result of the branch [cycle == 'fmg']: the solver, the returned
    array and, as a ghost result, the run of the solver that was built for
    each level above the coarsest. *)
Record fmg_run : Type := FmgRun {
  fmg_self : MG.multigrid_solver;
  fmg_u : vec;
  fmg_runs : list MG.run;
}.

(** Lines 145-147, for one [n]: a solver on the last [n + 1] levels makes
    at most one V-cycle on the prolongated iterate.  [self.levels[-n]] is
    [self.levels[L - n]]. *)
Definition fmg_step (self : MG.multigrid_solver) (blist : list vec)
    (smoothing_iters : nat) (n : nat) (acc : vec * list MG.run)
    : outcome (vec * list MG.run) :=
  let '(u, runs) := acc in
  let L := length (MG.levels self) in
  gmg_solver ← MG.init (drop (L - 1 - n) (MG.levels self))
                 (MG.coarse_mx self) (MG.coarse_my self) (MG.smoother self)
                 (MG.coarse_solver self) (MG.diagnostics self);
  lev ← getitem (MG.levels self) (L - n);
  let u := dot (P lev) u in
  bn ← getitem blist (L - 1 - n);
  r ← MG.solve_iterative gmg_solver bn (Some u) "V" 1e-12%float 1
        smoothing_iters;
  Ok (MG.run_u r, runs ++ [r]).

(** The branch [cycle == 'fmg'] of [solve] (lines 134-151). *)
Definition solve_fmg (self : MG.multigrid_solver) (b : vec)
    (smoothing_iters : nat) : outcome fmg_run :=
  let L := length (MG.levels self) in
  blist ← for_each (restrict_step (MG.levels self)) (seq 0 (L - 1)) [b];
  coarsest ← getitem_last (MG.levels self);
  b_last ← getitem_last blist;
  let u0 := MG.coarse_solver self (A coarsest) b_last in
  let u := u0 in
  '(u, runs) ← for_each (fmg_step self blist smoothing_iters) (seq 1 (L - 1))
                 (u, []);
  lev0 ← getitem (MG.levels self) 0;
  let self := MG.append_residual (norm_inf (np.sub b (dot (A lev0) u))) self in
  Ok (FmgRun self u runs).

End Solver.
End FMG.

(** ** [linear_pfas_solver] (lines 209-586) *)

Module PFAS.
Section Solver.
Context `{SciPy}.

Record linear_pfas_solver : Type := Build {
  levels : list level;
  coarse_solver : smoother_t;
  coarse_mx : nat;
  coarse_my : nat;
  self_level : nat;
  smoother : smoother_t;
  mu : float;
  diagnostics : option (list string);
  residuals : vec;
  self_bndry_pts : list nat;
}.

Definition set_self_level (i : nat) (s : linear_pfas_solver) :=
  {| levels := levels s; coarse_solver := coarse_solver s;
     coarse_mx := coarse_mx s; coarse_my := coarse_my s;
     self_level := i; smoother := smoother s; mu := mu s;
     diagnostics := diagnostics s; residuals := residuals s;
     self_bndry_pts := self_bndry_pts s |}.

Definition set_levels (ls : list level) (s : linear_pfas_solver) :=
  {| levels := ls; coarse_solver := coarse_solver s;
     coarse_mx := coarse_mx s; coarse_my := coarse_my s;
     self_level := self_level s; smoother := smoother s; mu := mu s;
     diagnostics := diagnostics s; residuals := residuals s;
     self_bndry_pts := self_bndry_pts s |}.

Definition set_residuals (rs : vec) (s : linear_pfas_solver) :=
  {| levels := levels s; coarse_solver := coarse_solver s;
     coarse_mx := coarse_mx s; coarse_my := coarse_my s;
     self_level := self_level s; smoother := smoother s; mu := mu s;
     diagnostics := diagnostics s; residuals := rs;
     self_bndry_pts := self_bndry_pts s |}.

(** [__init__] (lines 249-263). *)
Definition init (levels : list level) (coarse_mx coarse_my : nat)
    (smoother : smoother_t) (coarse_solver : option smoother_t)
    (diagnostics : option (list string)) : outcome linear_pfas_solver :=
  let coarse_solver :=
    match coarse_solver with None => smoother | Some cs => cs end in
  _ ← getitem levels 0;
  Ok {| levels := levels; coarse_solver := coarse_solver;
        coarse_mx := coarse_mx; coarse_my := coarse_my;
        self_level := 0; smoother := smoother; mu := 0.15%float;
        diagnostics := diagnostics; residuals := [];
        self_bndry_pts := [] |}.

(** ['...' in self.diagnostics]: a [TypeError] when [diagnostics] is
    [None], the default of the constructor. *)
Definition in_diagnostics (s : string) (self : linear_pfas_solver)
    : outcome bool :=
  match diagnostics self with
  | None => Raise TypeError
  | Some ds => Ok (bool_decide (s ∈ ds))
  end.

(** [active_set] (lines 359-360). *)
Definition active_set (u r : vec) : outcome (list nat) :=
  let mask := np.band (np.lt u 1e-16%float) (np.gt r 0.0%float) in
  if decide (length mask = length r)
  then Ok (np.mask_select (np.arange (length r)) mask)
  else Raise IndexError.

(** The loop of lines 306-310 on the coarsest grid. *)
Fixpoint coarse_relax (fuel : nat) (self : linear_pfas_solver)
    (coarse_A : spmatrix) (du : float) (coarse_u coarse_b : vec)
    : outcome vec :=
  if (1e-12 <? du)%float then
    match fuel with
    | 0 => OutOfFuel
    | S fuel' =>
      let uold := coarse_u in
      let coarse_u := smoother self coarse_A coarse_u coarse_b None in
      let du := (np.of_nat (coarse_mx self + 1)
                 * norm (np.sub uold coarse_u))%float in
      coarse_relax fuel' self coarse_A du coarse_u coarse_b
    end
  else Ok coarse_u.

(** [lvl_solve] (lines 265-320).  [d] is the number of levels from [lvl]
    on, [fuel] the sweep budget of the coarsest grid.  The membership
    tests of lines 303 and 316 cannot fail once that of line 268 has
    succeeded. *)
Fixpoint lvl_solve_from (d : nat) (fuel : nat) (self : linear_pfas_solver)
    (lvl : nat) (u b : vec) (cycle : string) (smoothing_iters : nat)
    : outcome (vec * visit) :=
  match d with
  | 0 => Raise IndexError
  | S d' =>
    lev ← getitem (levels self) lvl;
    _ ← in_diagnostics "show levels" self;
    let u1 := sweeps (smoother self) smoothing_iters (A lev) b None u in
    let coarse_u := dot (R lev) u1 in
    let coarse_b := dot (R lev) (np.sub b (dot (A lev) u1)) in
    nxt ← getitem (levels self) (lvl + 1);
    let coarse_A := A nxt in
    let coarse_b := np.add coarse_b (dot coarse_A coarse_u) in
    '(coarse_u', inner) ←
      (if (Z.of_nat lvl <? Z.of_nat (length (levels self)) - 2)%Z then
         if String.eqb cycle "W" then
           '(cu1, v1) ← lvl_solve_from d' fuel self (lvl + 1) coarse_u coarse_b cycle 1;
           '(cu2, v2) ← lvl_solve_from d' fuel self (lvl + 1) cu1 coarse_b cycle 1;
           Ok (cu2, [v1; v2])
         else if String.eqb cycle "V" then
           '(cu1, v1) ← lvl_solve_from d' fuel self (lvl + 1) coarse_u coarse_b cycle 1;
           Ok (cu1, [v1])
         else if String.eqb cycle "FV" then
           '(cu1, v1) ← lvl_solve_from d' fuel self (lvl + 1) coarse_u coarse_b "FV" 1;
           '(cu2, v2) ← lvl_solve_from d' fuel self (lvl + 1) cu1 coarse_b "V" 1;
           Ok (cu2, [v1; v2])
         else if String.eqb cycle "FW" then
           '(cu1, v1) ← lvl_solve_from d' fuel self (lvl + 1) coarse_u coarse_b "FW" 1;
           '(cu2, v2) ← lvl_solve_from d' fuel self (lvl + 1) cu1 coarse_b "W" 1;
           Ok (cu2, [v1; v2])
         else if String.eqb cycle "fmgV" then
           let coarse_b2 := dot (R lev) b in
           '(cu1, v1) ← lvl_solve_from d' fuel self (lvl + 1) coarse_u coarse_b2 "fmgV" 1;
           '(cu2, v2) ← lvl_solve_from d' fuel self (lvl + 1) cu1 coarse_b "V" 1;
           Ok (cu2, [v1; v2])
         else Ok (coarse_u, [])
       else
         cu ← coarse_relax fuel self coarse_A 1.0%float coarse_u coarse_b;
         Ok (cu, [CoarseRelax coarse_A coarse_u coarse_b cu]));
    let u2 :=
      np.add u1 (dot (P nxt) (np.sub coarse_u' (dot (R lev) u1))) in
    let u3 := sweeps (smoother self) smoothing_iters (A lev) b None u2 in
    Ok (u3, Visit lvl cycle u b u3 inner)
  end.

Definition lvl_solve (fuel : nat) (self : linear_pfas_solver) (lvl : nat)
    (u b : vec) (cycle : string) (smoothing_iters : nat)
    : outcome (vec * visit) :=
  lvl_solve_from (length (levels self) - lvl) fuel self lvl u b cycle
    smoothing_iters.

(** *** [solve], branch [cycle != 'fmg'] (lines 365-561) *)

(** Lines 368-405: the value of the name [u0] when line 407 is reached.
    The name [gs] is local to [solve], since the import of line 475 binds
    it in the function body; lines 386 and 396 read it before that import
    has run.  A comparison of an array with the string ['zero'] (line 368)
    is false. *)
Definition initial_guess (self : linear_pfas_solver) (b : vec)
    (u0 : u0_arg) (tol : float) : outcome u0_arg :=
  let zero_guess :=
    let u0 := np.zeros_like b in
    lev0 ← getitem (levels self) 0;
    if decide (length (bndry_pts lev0) = 0) then Ok (U0Array u0)
    else v ← index_copy u0 (bndry_pts lev0) b; Ok (U0Array v) in
  match u0 with
  | U0None => zero_guess
  | U0Array v => Ok (U0Array v)
  | U0Str s =>
    if String.eqb s "zero" then zero_guess
    else if String.eqb s "spsolve" then
      lev ← getitem (levels self) (self_level self);
      Ok (U0Array (spsolve (A lev) b))
    else if String.eqb s "gmg" then Raise UnboundLocalError
    else if String.eqb s "gs" then
      let r0 := norm_inf b in
      let u := np.zeros_like b in
      let r := r0 in
      if (tol <? r / r0)%float then Raise UnboundLocalError
      else Ok (U0Str s)
    else
      lev0 ← getitem (levels self) 0;
      if decide (0 < length (bndry_pts lev0)) then
        v ← index_copy (np.zeros_like b) (bndry_pts lev0) b;
        Ok (U0Array v)
      else Ok (U0Array b)
  end.

(** Lines 407-408: [u = np.array(u0); u[u < 0.0] = 0.0].  Only an array
    can be compared with [0.0]. *)
Definition start_iterate (u0 : u0_arg) : outcome vec :=
  match u0 with
  | U0Array v =>
    let u := v in
    Ok (np.mask_fill u (np.lt u 0.0%float) 0.0%float)
  | U0Str _ | U0None => Raise TypeError
  end.

(** The names of [solve] during the projected cycling.  [c_u] is the
    location of the array [u]; the right-hand side [b] is not rebound in
    this phase. *)
Record cycling : Type := Cycling {
  c_self : linear_pfas_solver;
  c_heap : heap;
  c_u : loc;
  c_residuals : vec;
  c_z : nat;
  c_old : gset nat;
  c_new : gset nat;
  c_normb : float;
  c_log : list visit;
}.

(** Lines 368-426. *)
Definition enter_cycling (self : linear_pfas_solver) (h : heap) (b : loc)
    (u0 : u0_arg) (tol : float) : outcome cycling :=
  let bv := load b h in
  g ← initial_guess self bv u0 tol;
  uv ← start_iterate g;
  let '(u, h) := alloc uv h in
  lev ← getitem (levels self) (self_level self);
  let r := np.sub bv (dot (A lev) uv) in
  fomega ← compute_Fomega uv r;
  let residuals := [norm_inf fomega] in
  _ ← in_diagnostics "show residuals" self;
  act ← active_set uv r;
  let active_set_old : gset nat := list_to_set act in
  let active_set_new := active_set_old in
  Ok {| c_self := self; c_heap := h; c_u := u; c_residuals := residuals;
        c_z := 0; c_old := active_set_old; c_new := active_set_new;
        c_normb := norm bv; c_log := [] |}.

(** Lines 449-472: does the iteration end with [break]? *)
Definition exit_test (accel : option string) (z : nat)
    (active_set_new active_set_old : gset nat) (conv_factor : float)
    : bool :=
  if bool_decide (accel = Some "rsp"%string) then
    let active_set_change :=
      if bool_decide (size active_set_new ≠ 0) then
        (np.of_nat (size ((active_set_new ∖ active_set_old)
                          ∪ (active_set_old ∖ active_set_new)))
         / np.of_nat (size active_set_new))%float
      else 0.0%float in
    bool_decide (z ≠ 0)
    && ((active_set_change <? 0.01)%float || (0.3 <? conv_factor)%float)
  else
    bool_decide (z ≠ 0) && bool_decide (active_set_new = active_set_old).

(** One iteration of the loop of lines 428-472; the boolean tells whether
    it ended with [break]. *)
Definition cycling_step (fuel : nat) (b : loc) (cycle : string)
    (smoothing_iters : nat) (accel : option string) (st : cycling)
    : outcome (bool * cycling) :=
  let h := c_heap st in
  let bv := load b h in
  '(u', v) ← lvl_solve fuel (c_self st) 0 (load (c_u st) h) bv cycle
               smoothing_iters;
  let h := store (c_u st) u' h in
  let self := set_self_level 0 (c_self st) in
  let z := c_z st + 1 in
  lev ← getitem (levels self) (self_level self);
  let r := np.sub bv (dot (A lev) u') in
  fomega ← compute_Fomega u' r;
  let residuals := c_residuals st ++ [norm_inf fomega] in
  let active_set_old := c_new st in
  act ← active_set u' r;
  let active_set_new : gset nat := list_to_set act in
  r_last ← getitem_last residuals;
  r_first ← getitem residuals 0;
  e ← py_div 1.0%float (np.of_nat (length residuals) - 1.0)%float;
  let conv_factor := power (r_last / r_first)%float e in
  Ok (exit_test accel z active_set_new active_set_old conv_factor,
      {| c_self := self; c_heap := h; c_u := c_u st;
         c_residuals := residuals; c_z := z; c_old := active_set_old;
         c_new := active_set_new; c_normb := c_normb st;
         c_log := c_log st ++ [v] |}).

(** The loop of lines 428-472, with [n = maxiters - z] iterations left. *)
Fixpoint cycling_loop (n : nat) (fuel : nat) (b : loc) (cycle : string)
    (tol : float) (smoothing_iters : nat) (accel : option string)
    (st : cycling) : outcome cycling :=
  r_last ← getitem_last (c_residuals st);
  match n with
  | S n' =>
    if (tol <? r_last / c_normb st)%float then
      '(brk, st') ← cycling_step fuel b cycle smoothing_iters accel st;
      if brk : bool then Ok st'
      else cycling_loop n' fuel b cycle tol smoothing_iters accel st'
    else Ok st
  | 0 => Ok st
  end.

(** The names that are bound once the frozen phase has made a pass:
    [b1], [Alist] and [gmg_solver], of which only the residuals are read
    afterwards. *)
Record gmg_vars : Type := GmgVars {
  b1 : loc;
  Alist : list spmatrix;
  gmg_residuals : vec;
}.

(** The names of [solve] during the frozen linear correction.  [f_u] and
    [f_b] are the locations the names [u] and [b] are bound to;
    [gmg_called] is true exactly when [f_gmg] is bound. *)
Record frozen : Type := Frozen {
  f_self : linear_pfas_solver;
  f_heap : heap;
  f_u : loc;
  f_b : loc;
  f_residuals : vec;
  f_z : nat;
  f_active : list nat;
  f_normb : float;
  f_gmg : option gmg_vars;
  f_log : list visit;
}.

Definition gmg_called (st : frozen) : bool :=
  match f_gmg st with Some _ => true | None => false end.

(** The situation after a pass, seen from the caller whose array lives at
    [caller]: that array holds [zeroed]; the name [b] is bound to another
    array, which holds [orig], as does the saved copy [b1]. *)
Definition rebound (caller : loc) (zeroed orig : vec) (st : frozen) : Prop :=
  caller < length (f_heap st)
  /\ f_b st <> caller
  /\ load caller (f_heap st) = zeroed
  /\ load (f_b st) (f_heap st) = orig
  /\ exists g,
       f_gmg st = Some g
       /\ b1 g < length (f_heap st)
       /\ b1 g <> caller
       /\ f_b st <> b1 g
       /\ load (b1 g) (f_heap st) = orig.

(** Line 474: the state in which the frozen phase is entered.  The set
    [active_set_new] is turned into a list on line 486. *)
Definition enter_frozen (b : loc) (st : cycling) : frozen :=
  {| f_self := c_self st; f_heap := c_heap st; f_u := c_u st; f_b := b;
     f_residuals := c_residuals st; f_z := c_z st;
     f_active := elements (c_new st); f_normb := c_normb st;
     f_gmg := None; f_log := c_log st |}.

(** Lines 491-495, for one [i]. *)
Definition constrain_level (Alist : list spmatrix) (i : nat)
    (acc : list level * vec) : outcome (list level * vec) :=
  let '(ls, active_set_vec) := acc in
  a ← getitem Alist i;
  lev ← getitem ls i;
  let lev := set_A a lev in
  let I_elim :=
    matneg (diags (np.sub_scalar active_set_vec 1.0%float)
                  (shape (A lev))) in
  let I_add := diags active_set_vec (shape (A lev)) in
  let lev := set_A (matadd (matmul I_elim (matmul (A lev) I_elim)) I_add)
                   lev in
  Ok (<[i := lev]> ls, dot (R lev) active_set_vec).

(** Line 504, for one [i]. *)
Definition restore_level (Alist : list spmatrix) (i : nat)
    (ls : list level) : outcome (list level) :=
  a ← getitem Alist i;
  lev ← getitem ls i;
  Ok (<[i := set_A a lev]> ls).

(** One pass of the loop of lines 476-508; the boolean tells whether it
    ended with [break].  [gmg_solver.solve] is called with its default
    [maxiters=50] and returns a new array. *)
Definition frozen_pass (cycle : string) (tol : float)
    (smoothing_iters : nat) (st : frozen) : outcome (bool * frozen) :=
  let self := f_self st in
  let h := f_heap st in
  active_set_new ←
    match f_gmg st with
    | Some g => active_set (load (f_u st) h) (load (b1 g) h)
    | None => Ok (f_active st)
    end;
  let '(b1, Alist, h) :=
    match f_gmg st with
    | Some g => (b1 g, Alist g, h)
    | None =>
      let '(l, h') := alloc (load (f_b st) h) h in
      (l, map A (levels self), h')
    end in
  cur ← getitem (levels self) (self_level self);
  let active_set_vec := np.zeros ((mx cur + 2) * (my cur + 2)) in
  bv ← np.index_fill (load (f_b st) h) active_set_new 0.0%float;
  let h := store (f_b st) bv h in
  active_set_vec ← np.index_fill active_set_vec active_set_new 1.0%float;
  '(ls, _) ← for_each (constrain_level Alist)
               (seq 0 (length (levels self))) (levels self, active_set_vec);
  let self := set_levels ls self in
  gmg_solver ← MG.init (levels self) (coarse_mx self) (coarse_my self)
                 gs spsolve [];
  let normb := norm (load (f_b st) h) in
  r_first ← getitem (f_residuals st) 0;
  run ← MG.solve_iterative gmg_solver (load (f_b st) h)
          (Some (load (f_u st) h)) cycle (tol / normb * r_first)%float
          50 smoothing_iters;
  let '(u, h) := alloc (MG.run_u run) h in
  let h := store u (np.mask_fill (load u h)
                      (np.lt (load u h) 0.0%float) 0.0%float) h in
  let '(b, h) := alloc (load b1 h) h in
  a0 ← getitem Alist 0;
  fomega ← compute_Fomega (load u h)
             (np.sub (load b h) (dot a0 (load u h)));
  let residuals := f_residuals st ++ [norm_inf fomega] in
  ls ← for_each (restore_level Alist) (seq 0 (length (levels self)))
         (levels self);
  let self := set_levels ls self in
  let z := f_z st + 1 in
  let gmg_res := MG.residuals (MG.run_self run) in
  Ok (bool_decide (length gmg_res = 1),
      {| f_self := self; f_heap := h; f_u := u; f_b := b;
         f_residuals := residuals; f_z := z;
         f_active := active_set_new; f_normb := normb;
         f_gmg := Some {| b1 := b1; Alist := Alist;
                          gmg_residuals := gmg_res |};
         f_log := f_log st ++ MG.run_cycles run |}).

(** The loop of lines 476-508, with [n = maxiters - z] passes left. *)
Fixpoint frozen_loop (n : nat) (cycle : string) (tol : float)
    (smoothing_iters : nat) (st : frozen) : outcome frozen :=
  r_last ← getitem_last (f_residuals st);
  r_first ← getitem (f_residuals st) 0;
  match n with
  | S n' =>
    if (tol <? r_last / r_first)%float then
      '(brk, st') ← frozen_pass cycle tol smoothing_iters st;
      if brk : bool then Ok st'
      else frozen_loop n' cycle tol smoothing_iters st'
    else Ok st
  | 0 => Ok st
  end.

(** What [solve] leaves behind: the solver, the heap, the location of the
    returned array, the location the local name [b] is bound to at the end,
    the final [gmg_called] and the visits made. *)
Record result : Type := Result {
  r_self : linear_pfas_solver;
  r_heap : heap;
  r_u : loc;
  r_b : loc;
  r_gmg_called : bool;
  r_log : list visit;
}.

(** Lines 509-561.  The exponent [1.0 / (len(residuals) - 1.0)] of line
    559 is a division of Python floats. *)
Definition finish (st : frozen) : outcome result :=
  let residuals := f_residuals st in
  let num_pfas := length residuals - 1 in
  let residuals :=
    match f_gmg st with
    | Some g =>
      Nat.iter (length (gmg_residuals g))
        (fun rs => take num_pfas rs ++ gmg_residuals g) residuals
    | None => residuals
    end in
  let self := set_residuals residuals (f_self st) in
  _ ← in_diagnostics "show reduced space" self;
  e ← py_div 1.0%float (np.of_nat (length residuals) - 1.0)%float;
  Ok {| r_self := self; r_heap := f_heap st; r_u := f_u st; r_b := f_b st;
        r_gmg_called := gmg_called st; r_log := f_log st |}.

(** The branch [cycle != 'fmg'] of [solve].  [b] is the location of the
    array the caller passed. *)
Definition solve_iterative (fuel : nat) (self : linear_pfas_solver)
    (h : heap) (b : loc) (u0 : u0_arg) (cycle : string) (tol : float)
    (maxiters smoothing_iters : nat) (accel : option string)
    : outcome result :=
  st ← enter_cycling self h b u0 tol;
  st ← cycling_loop maxiters fuel b cycle tol smoothing_iters accel st;
  st ← frozen_loop (maxiters - c_z st) cycle tol smoothing_iters
         (enter_frozen b st);
  finish st.

(** *** [solve], branch [cycle == 'fmg'] (lines 563-586) *)

(** The loop of lines 565-567 on the heap: [blist[0]] is the array of the
    caller, the other entries are new arrays. *)
Definition restrict_alloc (levels : list level) (k : nat)
    (acc : heap * list loc) : outcome (heap * list loc) :=
  let '(h, blist) := acc in
  lev ← getitem levels k;
  b_last ← getitem_last blist;
  let '(l, h) := alloc (dot (R lev) (load b_last h)) h in
  Ok (h, blist ++ [l]).

(** Lines 579-584, for one [n]: a solver on the last [n + 1] levels is run
    with its defaults [maxiters=400] and [accel=None] on [blist[-1-n]],
    from the prolongated iterate with the boundary values of that
    right-hand side.  The arrays bound to [u] are new ones, so that [u] is
    carried as a value; the solves are recorded as a ghost result. *)
Definition fmg_step (fuel : nat) (self : linear_pfas_solver)
    (blist : list loc) (smoothing_iters : nat) (n : nat)
    (acc : heap * vec * list result) : outcome (heap * vec * list result) :=
  let '(h, u, subs) := acc in
  let L := length (levels self) in
  pfas_solver ← init (drop (L - 1 - n) (levels self)) (coarse_mx self)
                  (coarse_my self) (smoother self)
                  (Some (coarse_solver self)) (diagnostics self);
  lev ← getitem (levels self) (L - n);
  let u := dot (P lev) u in
  levb ← getitem (levels self) (L - 1 - n);
  let bndry := bndry_pts levb in
  b ← getitem blist (L - 1 - n);
  u ← index_copy u bndry (load b h);
  res ← solve_iterative fuel pfas_solver h b (U0Array u) "V" 1e-8%float 400
          smoothing_iters None;
  Ok (r_heap res, load (r_u res) (r_heap res), subs ++ [res]).

Definition solve_fmg (fuel : nat) (self : linear_pfas_solver) (h : heap)
    (b : loc) (smoothing_iters : nat) : outcome (heap * vec * list result) :=
  let L := length (levels self) in
  '(h, blist) ← for_each (restrict_alloc (levels self)) (seq 0 (L - 1))
                  (h, [b]);
  b_last ← getitem_last blist;
  let u := np.zeros_like (load b_last h) in
  coarsest ← getitem_last (levels self);
  let bndry := bndry_pts coarsest in
  u ← index_copy u bndry (load b_last h);
  u ← coarse_relax fuel self (A coarsest) 1.0%float u (load b_last h);
  let u := dot (P coarsest) u in
  for_each (fmg_step fuel self blist smoothing_iters) (seq 2 (L - 2))
    (h, u, []).

End Solver.
End PFAS.

(** ** The callers: [box_obstacle_problem] and [dam_example.main] *)

Module box_obstacle_problem.

(** [X, Y = np.meshgrid(xs, ys)] followed by [flatten()]: the arrays have
    one row for each entry of [ys] and are read row by row. *)
Definition meshgrid_X (xs ys : list nat) : list nat :=
  concat (map (fun _ => xs) ys).
Definition meshgrid_Y (xs ys : list nat) : list nat :=
  concat (map (fun y => map (fun _ => y) xs) ys).

(** [discretize] (lines 55-66 of [obstacle.py]): the value it assigns to
    [self.bndry_pts], the indices of the grid points on the boundary of
    the [(mx + 2) x (my + 2)] grid. *)
Definition discretize (mx my : nat) : list nat :=
  let X := meshgrid_X (np.arange (mx + 2)) (np.arange (my + 2)) in
  let Y := meshgrid_Y (np.arange (mx + 2)) (np.arange (my + 2)) in
  let eq (a : list nat) (c : nat) := map (fun x => x =? c)%nat a in
  let bor := zip_with orb in
  let bndry_vals :=
    bor (bor (bor (eq X 0) (eq Y (my + 1))) (eq Y 0)) (eq X (mx + 1)) in
  np.mask_select (np.arange (length X)) bndry_vals.

End box_obstacle_problem.

Module dam_example.

(** The loop of [main] that builds the hierarchy for the PFAS solver: the
    sizes with which the levels are discretized, coarsest first, [n] being
    the number of iterations left. *)
Fixpoint refine (n : nat) (mx my : nat) : list (nat * nat) :=
  match n with
  | 0 => []
  | S n' =>
    let mx := 2 * mx + 1 in
    let my := 2 * my + 1 in
    (mx, my) :: refine n' mx my
  end.

(** The sizes and the boundary points of [levels] once it has been
    reversed, as it is passed to [linear_pfas_solver]. *)
Definition levels (coarse_mx coarse_my num_levels : nat)
    : list (nat * nat * list nat) :=
  let sizes :=
    (coarse_mx, coarse_my) :: refine (num_levels - 1) coarse_mx coarse_my in
  reverse (map (fun s => (s.1, s.2, box_obstacle_problem.discretize s.1 s.2))
               sizes).

End dam_example.

(** ** An executable instance of the collaborators

    Dense matrices with the textbook operations, on which the definitions
    above can be run.  [spsolve] divides by the diagonal, which is exact for
    the diagonal coarse systems of the examples below; [power] is a stand-in
    that returns its base (the float power has no primitive counterpart);
    [gs] and [pgs] are one Gauss-Seidel sweep per iteration, [pgs] clamping
    each updated entry at zero. *)

Module Dense.

#[local] Open Scope float_scope.

Definition matrix : Type := list (list float).

Definition dotp (r x : vec) : float :=
  foldl (fun acc p => acc + p.1 * p.2) 0 (zip r x).

Definition dot (m : matrix) (x : vec) : vec := map (fun r => dotp r x) m.

Definition shape (m : matrix) : nat * nat :=
  (length m, match m with [] => 0%nat | r :: _ => length r end).

Definition column (j : nat) (m : matrix) : vec := map (fun r => r !!! j) m.

Definition matmul (a b : matrix) : matrix :=
  map (fun r => map (fun j => dotp r (column j b)) (seq 0 (shape b).2)) a.

Definition matadd (a b : matrix) : matrix :=
  zip_with (zip_with PrimFloat.add) a b.

Definition matneg (a : matrix) : matrix := map (map PrimFloat.opp) a.

Definition diags (d : vec) (s : nat * nat) : matrix :=
  map (fun i => map (fun j => if (i =? j)%nat then d !!! i else 0)
                    (seq 0 s.2))
      (seq 0 s.1).

Definition norm (x : vec) : float := sqrt (dotp x x).

Definition norm_inf (x : vec) : float :=
  foldr (fun v acc => if acc <? abs v then abs v else acc) 0 x.

Definition power (x y : float) : float := x.

Definition spsolve (a : matrix) (b : vec) : vec :=
  imap (fun i bi => bi / ((a !!! i) !!! i)) b.

(** One Gauss-Seidel sweep, [post] being applied to each new entry. *)
Definition sweep (post : float -> float) (a : matrix) (u b : vec) : vec :=
  foldl (fun u i =>
           let row := a !!! i in
           <[i := post ((b !!! i - dotp (<[i := 0]> row) u) / (row !!! i))]> u)
        u (seq 0 (length u)).

Definition iterations (maxiters : option nat) : nat :=
  match maxiters with Some n => n | None => 1%nat end.

Definition gs (a : matrix) (u b : vec) (maxiters : option nat) : vec :=
  Nat.iter (iterations maxiters) (fun u => sweep (fun x => x) a u b) u.

Definition pgs (a : matrix) (u b : vec) (maxiters : option nat) : vec :=
  Nat.iter (iterations maxiters)
    (fun u => sweep (fun x => if x <? 0 then 0 else x) a u b) u.

Definition scipy : SciPy :=
  Build_SciPy matrix dot matmul matadd matneg shape diags norm norm_inf
    power spsolve gs.

(** A hierarchy of three grids with 4, 2 and 1 unknowns: the
    one-dimensional Laplacian, injection and linear interpolation. *)
Definition A0 : matrix :=
  [[2; -1; 0; 0]; [-1; 2; -1; 0]; [0; -1; 2; -1]; [0; 0; -1; 2]].
Definition A1 : matrix := [[2; -1]; [-1; 2]].
Definition A2 : matrix := [[2]].
Definition R0 : matrix := [[1; 0; 0; 0]; [0; 0; 1; 0]].
Definition R1 : matrix := [[1; 0]].
Definition R2 : matrix := [[1]].
Definition P0 : matrix := [[1; 0; 0; 0]; [0; 1; 0; 0]; [0; 0; 1; 0]; [0; 0; 0; 1]].
Definition P1 : matrix := [[1; 0]; [0.5; 0.5]; [0; 1]; [0; 0.5]].
Definition P2 : matrix := [[1]; [0.5]].

Definition level0 : @level scipy := @Level scipy 0 0 A0 R0 P0 [].
Definition level1 : @level scipy := @Level scipy 0 0 A1 R1 P1 [].
Definition level2 : @level scipy := @Level scipy 0 0 A2 R2 P2 [].

Definition grids : list (@level scipy) := [level0; level1; level2].

Definition mg : @MG.multigrid_solver scipy :=
  @MG.Build scipy grids spsolve 1 1 0 gs [] [].

Definition pfas : @PFAS.linear_pfas_solver scipy :=
  @PFAS.Build scipy grids pgs 1 1 0 pgs 0.15 (Some []) [] [].

End Dense.

(** * Properties *)

(** ** Outcomes *)

Lemma bind_Ok {X Y : Type} (m : outcome X) (f : X -> outcome Y) (y : Y) :
  (x ← m; f x) = Ok y -> exists x, m = Ok x /\ f x = Ok y.
Proof. destruct m as [x| |]; simpl; intros E; try discriminate. eauto. Qed.

Lemma getitem_Ok {X : Type} (l : list X) (i : nat) (x : X) :
  getitem l i = Ok x <-> l !! i = Some x.
Proof.
  unfold getitem. destruct (l !! i); split; intros E; congruence.
Qed.

Lemma getitem_ge {X : Type} (l : list X) (i : nat) :
  length l <= i -> getitem l i = Raise IndexError.
Proof.
  intros Hi. unfold getitem. now rewrite (lookup_ge_None_2 l i Hi).
Qed.

Lemma getitem_last_Ok {X : Type} (l : list X) (x : X) :
  getitem_last l = Ok x <-> last l = Some x.
Proof.
  unfold getitem_last. destruct (last l); split; intros E; congruence.
Qed.

(** Decomposes a hypothesis [(x ← m; k) = Ok y] into its steps. *)
Ltac ok_step H :=
  let x := fresh "x" in
  let E := fresh "E" in
  apply bind_Ok in H; destruct H as (x & E & H).

(** ** Heap *)

Lemma load_alloc (v : vec) (h : heap) : load (alloc v h).1 (alloc v h).2 = v.
Proof.
  unfold load, alloc. simpl.
  apply list_lookup_total_correct.
  rewrite lookup_app_r by lia. now rewrite Nat.sub_diag.
Qed.

Lemma load_alloc_old (v : vec) (h : heap) (l : loc) :
  l < length h -> load l (alloc v h).2 = load l h.
Proof.
  intros Hl. unfold load, alloc. simpl.
  destruct (lookup_lt_is_Some_2 h l Hl) as [w Hw].
  rewrite (list_lookup_total_correct _ _ _ Hw).
  apply list_lookup_total_correct. now rewrite lookup_app_l.
Qed.

Lemma load_store (l : loc) (v : vec) (h : heap) :
  l < length h -> load l (store l v h) = v.
Proof.
  intros Hl. unfold load, store. apply list_lookup_total_correct.
  now apply list_lookup_insert_eq.
Qed.

Lemma load_store_ne (l l' : loc) (v : vec) (h : heap) :
  l <> l' -> load l (store l' v h) = load l h.
Proof.
  intros Hne. unfold load, store.
  apply list_lookup_total_insert_ne. congruence.
Qed.

Lemma length_store (l : loc) (v : vec) (h : heap) :
  length (store l v h) = length h.
Proof. apply length_insert. Qed.

Lemma length_alloc (v : vec) (h : heap) :
  length (alloc v h).2 = S (length h).
Proof. unfold alloc. simpl. rewrite length_app. simpl. lia. Qed.

(** ** The merit function *)

Lemma mask_assign_select (g : float -> float) (F : vec) (m : list bool) :
  length m = length F ->
  np.mask_assign (map g F) m (np.mask_select F m)
  = zip_with (fun (sel : bool) f => if sel then f else g f) m F.
Proof.
  revert m. induction F as [|f F IH]; intros [|[] m] Hlen;
    simpl in *; try discriminate; try reflexivity;
    f_equal; apply IH; lia.
Qed.

Lemma compute_Fomega_eq (u F : vec) :
  length u = length F ->
  compute_Fomega u F
  = Ok (zip_with (fun ui fi => if (1e-16 <? ui)%float then fi
                               else np.minimum1 fi 0%float) u F).
Proof.
  intros Hlen. unfold compute_Fomega, np.minimum, np.gt.
  rewrite length_map. destruct (decide (length u = length F)); [|done].
  rewrite mask_assign_select by (now rewrite length_map).
  f_equal. clear. revert F.
  induction u as [|x u IH]; intros [|f F]; simpl; try reflexivity.
  now rewrite IH.
Qed.

(** C8.  For vectors [u] and [F] of equal length, [compute_Fomega u F]
    returns a vector of that length whose [i]-th entry is [F_i] when
    [u_i > 1e-16] and [min(F_i, 0)] otherwise; the result is a function of
    the inputs, so identical inputs yield identical outputs. *)
Theorem compute_Fomega_spec (u F : vec) :
  length u = length F ->
  exists v,
    compute_Fomega u F = Ok v
    /\ length v = length F
    /\ (forall i ui fi,
          u !! i = Some ui -> F !! i = Some fi ->
          v !! i = Some (if (1e-16 <? ui)%float then fi
                         else np.minimum1 fi 0%float))
    /\ (forall u' F', u' = u -> F' = F ->
          compute_Fomega u' F' = Ok v).
Proof.
  intros Hlen. eexists. split; [apply compute_Fomega_eq, Hlen|].
  split; [|split].
  - rewrite length_zip_with. lia.
  - intros i ui fi Hu HF. rewrite lookup_zip_with, Hu. simpl.
    now rewrite HF.
  - intros u' F' -> ->. apply compute_Fomega_eq, Hlen.
Qed.

Lemma compute_Fomega_spec_witness :
  exists v,
    compute_Fomega [1; 0; -1]%float [3; -2; 5]%float = Ok v
    /\ length v = 3
    /\ (forall i ui fi,
          [1; 0; -1]%float !! i = Some ui ->
          [3; -2; 5]%float !! i = Some fi ->
          v !! i = Some (if (1e-16 <? ui)%float then fi
                         else np.minimum1 fi 0%float))
    /\ (forall u' F', u' = [1; 0; -1]%float -> F' = [3; -2; 5]%float ->
          compute_Fomega u' F' = Ok v).
Proof.
  apply (compute_Fomega_spec [1; 0; -1]%float [3; -2; 5]%float).
  reflexivity.
Defined.

(** ** Floats *)

Lemma ltb_nan_r (x : float) : (x <? nan)%float = false.
Proof.
  rewrite ltb_spec. change (Prim2SF nan) with S754_nan.
  destruct (Prim2SF x) as [[]|[]| |[] ? ?]; reflexivity.
Qed.

Lemma clamp_fixed (x : float) :
  (if (x <? 0)%float then 0%float else x) = x <-> (x <? 0)%float = false.
Proof.
  destruct (x <? 0)%float eqn:E; split; try reflexivity; try discriminate.
  intros <-. vm_compute in E. discriminate.
Qed.

(** ** The initial guess of [linear_pfas_solver.solve] *)

Section InitialGuess.
Context `{SciPy}.

Lemma mask_fill_lt (v : vec) :
  np.mask_fill v (np.lt v 0%float) 0%float
  = map (fun x => if (x <? 0)%float then 0%float else x) v.
Proof.
  unfold np.mask_fill, np.lt.
  induction v as [|x v IH]; simpl; [reflexivity|]. now rewrite IH.
Qed.

Lemma enter_cycling_Ok self h b u0 tol st :
  PFAS.enter_cycling self h b u0 tol = Ok st ->
  exists g uv,
    PFAS.initial_guess self (load b h) u0 tol = Ok g
    /\ PFAS.start_iterate g = Ok uv
    /\ PFAS.c_u st = length h
    /\ PFAS.c_heap st = h ++ [uv]
    /\ PFAS.c_self st = self
    /\ PFAS.c_z st = 0
    /\ PFAS.c_new st = PFAS.c_old st.
Proof.
  unfold PFAS.enter_cycling. intros E.
  ok_step E. ok_step E. unfold alloc in E.
  ok_step E. ok_step E. ok_step E. ok_step E.
  injection E as <-. simpl. eauto 10.
Qed.

(** C6 (as amended).  When a vector [v] is passed as [u0], the iterate the
    outer loop starts from is [v] with every negative entry replaced by
    [0.0] (line 408); it equals [v] component for component exactly when no
    entry of [v] is negative. *)
Theorem start_iterate_of_vector self h b (v : vec) tol st :
  PFAS.enter_cycling self h b (U0Array v) tol = Ok st ->
  load (PFAS.c_u st) (PFAS.c_heap st)
  = map (fun x => if (x <? 0)%float then 0%float else x) v
  /\ (load (PFAS.c_u st) (PFAS.c_heap st) = v
      <-> Forall (fun x => (x <? 0)%float = false) v).
Proof.
  intros E. apply enter_cycling_Ok in E.
  destruct E as (g & uv & Hg & Huv & Hu & Hh & _).
  simpl in Hg. injection Hg as <-. simpl in Huv. injection Huv as <-.
  rewrite Hu, Hh.
  change (load (length h) (h ++ [?w])) with (load (alloc w h).1 (alloc w h).2).
  rewrite load_alloc, mask_fill_lt. split; [reflexivity|].
  clear. induction v as [|x v IH]; simpl.
  - split; [constructor | reflexivity].
  - split.
    + intros E. injection E as Ex Ev. constructor.
      * now apply clamp_fixed.
      * now apply IH.
    + intros Hall. apply Forall_cons in Hall as [Hx Hv].
      f_equal; [now apply clamp_fixed | now apply IH].
Qed.

(** C7.  With [u0 = 'gs'] the relaxation never supplies the starting
    iterate: the sweeps of lines 393-397 work on the local array [u] and
    leave the name [u0] bound to the string, which line 407 then turns into
    [u]; and the first sweep already fails, [gs] being read before the
    import of line 475 has bound it.  In every case [solve] raises before
    the outer loop is reached. *)
Theorem gs_guess_never_starts fuel self h b cycle tol maxiters k accel :
  exists e,
    (e = UnboundLocalError \/ e = TypeError)
    /\ PFAS.enter_cycling self h b (U0Str "gs") tol = Raise e
    /\ PFAS.solve_iterative fuel self h b (U0Str "gs") cycle tol maxiters k
         accel = Raise e.
Proof.
  unfold PFAS.solve_iterative, PFAS.enter_cycling. simpl.
  destruct (tol <? norm_inf (load b h) / norm_inf (load b h))%float.
  - exists UnboundLocalError. simpl. auto.
  - exists TypeError. simpl. auto.
Qed.

End InitialGuess.

Lemma start_iterate_of_vector_witness :
  exists st,
    @PFAS.enter_cycling Dense.scipy Dense.pfas [[1; 1; 1; 1]%float] 0
      (U0Array [-1; 2; -3; 4]%float) 1e-8%float = Ok st
    /\ load (PFAS.c_u st) (PFAS.c_heap st)
       = map (fun x => if (x <? 0)%float then 0%float else x)
           [-1; 2; -3; 4]%float
    /\ (load (PFAS.c_u st) (PFAS.c_heap st) = [-1; 2; -3; 4]%float
        <-> Forall (fun x => (x <? 0)%float = false) [-1; 2; -3; 4]%float).
Proof.
  eexists. split; [vm_compute; reflexivity|].
  apply (@start_iterate_of_vector Dense.scipy Dense.pfas
           [[1; 1; 1; 1]%float] 0 [-1; 2; -3; 4]%float 1e-8%float).
  vm_compute. reflexivity.
Defined.

(** C6 fails as stated: a negative entry of the vector passed as [u0] does
    not reach the outer loop. *)
Lemma start_iterate_counterexample :
  exists st,
    @PFAS.enter_cycling Dense.scipy Dense.pfas [[1; 1; 1; 1]%float] 0
      (U0Array [-1; 2; -3; 4]%float) 1e-8%float = Ok st
    /\ load (PFAS.c_u st) (PFAS.c_heap st) = [0; 2; 0; 4]%float
    /\ load (PFAS.c_u st) (PFAS.c_heap st) <> [-1; 2; -3; 4]%float.
Proof.
  eexists. split; [vm_compute; reflexivity|]. split; [reflexivity|].
  intros E.
  apply (f_equal (fun l => match l with
                           | x :: _ => (x <? 0)%float
                           | [] => false
                           end)) in E.
  vm_compute in E. discriminate.
Qed.

(** ** The constructors *)

Section Constructors.
Context `{SciPy}.

Lemma init_empty cmx cmy sm cs cs' diag diag' :
  MG.init [] cmx cmy sm cs diag = Raise IndexError
  /\ PFAS.init [] cmx cmy sm cs' diag' = Raise IndexError.
Proof. split; reflexivity. Qed.


End Constructors.



(** ** Leaving the projected cycling *)

Section Cycling.
Context `{SciPy}.

Lemma exit_test_default (accel : option string) z new old conv_factor :
  accel <> Some "rsp"%string ->
  PFAS.exit_test accel z new old conv_factor
  = bool_decide (z <> 0) && bool_decide (new = old).
Proof.
  intros Hacc. unfold PFAS.exit_test.
  now rewrite (bool_decide_eq_false_2 _ Hacc).
Qed.

(** C2 (as amended).  Under the default policy an iteration of the
    projected cycling ends with [break] exactly when the active set it has
    just computed equals that of the previous iteration.  The estimated
    convergence factor has no part in the decision: whatever its value, it
    only selects the message that is printed before the [break]. *)
Theorem default_policy_break fuel b cycle k (accel : option string) st brk st' :
  accel <> Some "rsp"%string ->
  PFAS.cycling_step fuel b cycle k accel st = Ok (brk, st') ->
  PFAS.c_old st' = PFAS.c_new st
  /\ PFAS.c_z st' <> 0
  /\ (brk = true <-> PFAS.c_new st' = PFAS.c_old st')
  /\ (forall conv_factor,
        PFAS.exit_test accel (PFAS.c_z st') (PFAS.c_new st')
          (PFAS.c_old st') conv_factor = brk).
Proof.
  intros Hacc E. unfold PFAS.cycling_step in E.
  ok_step E. destruct x as [u' v].
  do 6 ok_step E.
  injection E as <- <-. simpl.
  split; [reflexivity|]. split; [lia|].
  rewrite !exit_test_default by assumption.
  rewrite (bool_decide_eq_true_2 (PFAS.c_z st + 1 <> 0)) by lia. simpl.
  split; [apply bool_decide_eq_true|].
  intros cf. now rewrite exit_test_default, bool_decide_eq_true_2 by (assumption || lia).
Qed.

End Cycling.

Lemma default_policy_break_witness :
  exists st brk st',
    @PFAS.enter_cycling Dense.scipy Dense.pfas [[-5; -5; -1; 3]%float] 0
      U0None 1e-8%float = Ok st
    /\ @PFAS.cycling_step Dense.scipy 100 0 "V" 1 None st = Ok (brk, st')
    /\ PFAS.c_old st' = PFAS.c_new st
    /\ PFAS.c_z st' <> 0
    /\ (brk = true <-> PFAS.c_new st' = PFAS.c_old st')
    /\ (forall conv_factor,
          PFAS.exit_test None (PFAS.c_z st') (PFAS.c_new st')
            (PFAS.c_old st') conv_factor = brk).
Proof.
  do 3 eexists. split; [vm_compute; reflexivity|].
  split; [vm_compute; reflexivity|].
  apply (@default_policy_break Dense.scipy 100 0 "V"%string 1 None).
  - discriminate.
  - vm_compute. reflexivity.
Defined.

(** C2 fails as stated: in the first iteration of this run the estimated
    convergence factor, [residuals[1] / residuals[0]] to the power [1.0],
    exceeds [0.75], the active set has changed, and the loop goes on. *)
Lemma default_policy_counterexample :
  exists st st' r0 r1,
    @PFAS.enter_cycling Dense.scipy Dense.pfas [[-5; -5; -1; 3]%float] 0
      U0None 1e-8%float = Ok st
    /\ @PFAS.cycling_step Dense.scipy 100 0 "V" 1 None st = Ok (false, st')
    /\ PFAS.c_residuals st' = [r0; r1]
    /\ (0.75 <? r1 / r0)%float = true
    /\ PFAS.c_new st' <> PFAS.c_old st'.
Proof.
  do 4 eexists. split; [vm_compute; reflexivity|].
  split; [vm_compute; reflexivity|].
  split; [reflexivity|]. split; [vm_compute; reflexivity|].
  simpl. intros E. apply (f_equal elements) in E. vm_compute in E.
  discriminate.
Qed.

(** ** [multigrid_solver]: a right-hand side of norm zero *)

Section Degenerate.
Context `{SciPy}.

Lemma getitem_last_snoc {X : Type} (l : list X) (x : X) :
  getitem_last (l ++ [x]) = Ok x.
Proof. unfold getitem_last. now rewrite last_snoc. Qed.

(** C5 (as amended).  There is no guard for [‖b‖₂ = 0]: [solve] evaluates
    [residual / 0.0] under the IEEE rules.  When the initial residual
    [‖b − A·u0‖∞] is [0.0] as well (as it is for the default zero iterate),
    the quotient is NaN, the test [NaN > tol] is false, and [solve] returns
    the initial iterate without running any cycle. *)
Theorem zero_rhs_zero_residual self b (u0 : option vec) cycle tol maxiters k
    lev :
  MG.levels self !! MG.self_level self = Some lev ->
  norm b = 0%float ->
  norm_inf (np.sub b (dot (A lev) (default (np.zeros_like b) u0))) = 0%float ->
  MG.solve_iterative self b u0 cycle tol maxiters k
  = Ok (MG.Run (MG.append_residual 0%float self)
               (default (np.zeros_like b) u0) 0 []).
Proof.
  intros Hlev Hb Hr. unfold MG.solve_iterative.
  apply getitem_Ok in Hlev. rewrite Hlev. simpl.
  change (match u0 with Some v => v | None => np.zeros_like b end)
    with (default (np.zeros_like b) u0).
  rewrite Hr, Hb.
  destruct maxiters as [|n]; simpl; rewrite getitem_last_snoc; simpl;
    [reflexivity|].
  change (0 / 0)%float with nan. now rewrite ltb_nan_r.
Qed.

End Degenerate.

Lemma zero_rhs_zero_residual_witness :
  @MG.solve_iterative Dense.scipy Dense.mg [0; 0; 0; 0]%float None "V"
    1e-12%float 50 1
  = Ok (MG.Run (MG.append_residual 0%float Dense.mg)
               (default (np.zeros_like [0; 0; 0; 0]%float) None) 0 []).
Proof.
  apply (@zero_rhs_zero_residual Dense.scipy Dense.mg [0; 0; 0; 0]%float None
           "V"%string 1e-12%float 50 1 Dense.level0);
    vm_compute; reflexivity.
Defined.

(** C5 fails as stated: with [b = 0] and an initial iterate whose residual
    is not zero the quotient is [+inf], and all 50 cycles run. *)
Lemma zero_rhs_counterexample :
  @norm Dense.scipy [0; 0; 0; 0]%float = 0%float
  /\ exists r,
       @MG.solve_iterative Dense.scipy Dense.mg [0; 0; 0; 0]%float
         (Some [1; 1; 1; 1]%float) "V" 1e-12%float 50 1 = Ok r
       /\ MG.run_z r = 50
       /\ length (MG.run_cycles r) = 50.
Proof.
  split; [vm_compute; reflexivity|].
  eexists. split; [vm_compute; reflexivity|]. split; reflexivity.
Qed.

(** ** [multigrid_solver.lvl_solve]: the calls of one visit *)

Section LinearCycle.
Context `{SciPy}.

Lemma below_coarse_true (lvl n : nat) :
  lvl + 2 < n -> (Z.of_nat lvl <? Z.of_nat n - 2)%Z = true.
Proof. intros Hl. apply Z.ltb_lt. lia. Qed.

Lemma below_coarse_false (lvl n : nat) :
  n <= lvl + 2 -> (Z.of_nat lvl <? Z.of_nat n - 2)%Z = false.
Proof. intros Hl. apply Z.ltb_ge. lia. Qed.

Lemma getitem_lt {X : Type} (l : list X) (i : nat) :
  i < length l -> exists x, getitem l i = Ok x /\ l !! i = Some x.
Proof.
  intros Hi. destruct (lookup_lt_is_Some_2 l i Hi) as [x Hx].
  exists x. split; [now apply getitem_Ok | assumption].
Qed.

Lemma getitem_last_lookup {X : Type} (l : list X) (i : nat) :
  S i = length l -> exists x, getitem_last l = Ok x /\ l !! i = Some x.
Proof.
  intros Hi. destruct (lookup_lt_is_Some_2 l i) as [x Hx]; [lia|].
  exists x. split; [|assumption].
  apply getitem_last_Ok. rewrite last_lookup, <- Hi. exact Hx.
Qed.

(** With at least two levels from [lvl] on, [lvl_solve] returns. *)
Lemma lvl_solve_from_returns self d : forall lvl u b cycle k,
  d = length (MG.levels self) - lvl ->
  lvl + 2 <= length (MG.levels self) ->
  exists u' inner,
    MG.lvl_solve_from d self lvl u b cycle k
    = Ok (u', Visit lvl cycle u b u' inner).
Proof.
  induction d as [|d IH]; intros lvl u b cycle k Hd Hlvl; [lia|].
  simpl.
  destruct (getitem_lt (MG.levels self) lvl) as (lev & -> & _); [lia|].
  destruct (getitem_lt (MG.levels self) (lvl + 1)) as (nxt & Hnxt & _); [lia|].
  simpl.
  destruct (decide (lvl + 2 < length (MG.levels self))) as [Hlt|Hge].
  - rewrite below_coarse_true by assumption.
    set (cb := dot (R lev) _). set (cu := np.zeros_like cb).
    assert (Hrec : forall u0 c, exists u1 i1,
               MG.lvl_solve_from d self (lvl + 1) u0 cb c 1
               = Ok (u1, Visit (lvl + 1) c u0 cb u1 i1))
      by (intros; apply IH; lia).
    destruct (String.eqb cycle "W");
      [|destruct (String.eqb cycle "V");
        [|destruct (String.eqb cycle "FV");
          [|destruct (String.eqb cycle "FW")]]].
    + destruct (Hrec cu cycle) as (u1 & i1 & ->). simpl.
      destruct (Hrec u1 cycle) as (u2 & i2 & ->). simpl.
      rewrite Hnxt. simpl. eauto.
    + destruct (Hrec cu cycle) as (u1 & i1 & ->). simpl.
      rewrite Hnxt. simpl. eauto.
    + destruct (Hrec cu cycle) as (u1 & i1 & ->). simpl.
      destruct (Hrec u1 "V"%string) as (u2 & i2 & ->). simpl.
      rewrite Hnxt. simpl. eauto.
    + destruct (Hrec cu cycle) as (u1 & i1 & ->). simpl.
      destruct (Hrec u1 "W"%string) as (u2 & i2 & ->). simpl.
      rewrite Hnxt. simpl. eauto.
    + simpl. rewrite Hnxt. simpl. eauto.
  - rewrite below_coarse_false by lia.
    destruct (getitem_last_lookup (MG.levels self) (lvl + 1))
      as (last & -> & _); [lia|].
    simpl. rewrite Hnxt. simpl. eauto.
Qed.


End LinearCycle.



(** ** [linear_pfas_solver.lvl_solve]: one projected cycle *)

Section ProjectedCycle.
Context `{SciPy}.



End ProjectedCycle.


(** ** The frozen linear correction *)

Section FrozenPhase.
Context `{SciPy}.

Lemma load_app_old (l : loc) (h : heap) (v : vec) :
  l < length h -> load l (h ++ [v]) = load l h.
Proof. apply (load_alloc_old v h l). Qed.

Lemma load_app_new (h : heap) (v : vec) : load (length h) (h ++ [v]) = v.
Proof. apply (load_alloc v h). Qed.

Lemma length_heap_after_pass h1 fb zeroed unew uclamp b1l :
  length (heap_after_pass h1 fb zeroed unew uclamp b1l) = S (S (length h1)).
Proof.
  unfold heap_after_pass. simpl.
  rewrite length_app, length_store, length_app, length_store. simpl. lia.
Qed.

Lemma load_heap_after_pass h1 fb zeroed unew uclamp b1l (l : loc) :
  l < length h1 ->
  load l (heap_after_pass h1 fb zeroed unew uclamp b1l)
  = if decide (l = fb) then zeroed else load l h1.
Proof.
  intros Hl. unfold heap_after_pass. simpl.
  rewrite load_app_old
    by (rewrite length_store, length_app, length_store; simpl; lia).
  rewrite load_store_ne by (rewrite length_store; lia).
  rewrite load_app_old by (rewrite length_store; lia).
  destruct (decide (l = fb)) as [->|Hne].
  - now apply load_store.
  - now apply load_store_ne.
Qed.

Lemma load_new_b h1 fb zeroed unew uclamp b1l :
  load (S (length h1)) (heap_after_pass h1 fb zeroed unew uclamp b1l)
  = load b1l (store (length h1) uclamp (store fb zeroed h1 ++ [unew])).
Proof.
  unfold heap_after_pass. simpl. rewrite length_store.
  replace (S (length h1))
    with (length (store (length h1) uclamp (store fb zeroed h1 ++ [unew])))
    by (rewrite length_store, length_app, length_store; simpl; lia).
  apply load_app_new.
Qed.

(** What a pass that returns has done. *)
Lemma frozen_pass_Ok cycle tol k st brk st' :
  PFAS.frozen_pass cycle tol k st = Ok (brk, st') ->
  let h0 := PFAS.f_heap st in
  let b1l :=
    match PFAS.f_gmg st with Some g => PFAS.b1 g | None => length h0 end in
  let Al :=
    match PFAS.f_gmg st with
    | Some g => PFAS.Alist g
    | None => map A (PFAS.levels (PFAS.f_self st))
    end in
  let h1 :=
    match PFAS.f_gmg st with
    | Some _ => h0
    | None => h0 ++ [load (PFAS.f_b st) h0]
    end in
  exists active zeroed asv0 ls1 asv1 ls2 unew uclamp gres,
    match PFAS.f_gmg st with
    | Some g => PFAS.active_set (load (PFAS.f_u st) h0) (load (PFAS.b1 g) h0)
    | None => Ok (PFAS.f_active st)
    end = Ok active
    /\ np.index_fill (load (PFAS.f_b st) h1) active 0%float = Ok zeroed
    /\ for_each (PFAS.constrain_level Al)
         (seq 0 (length (PFAS.levels (PFAS.f_self st))))
         (PFAS.levels (PFAS.f_self st), asv0) = Ok (ls1, asv1)
    /\ for_each (PFAS.restore_level Al) (seq 0 (length ls1)) ls1 = Ok ls2
    /\ PFAS.levels (PFAS.f_self st') = ls2
    /\ PFAS.f_gmg st' = Some (PFAS.GmgVars b1l Al gres)
    /\ PFAS.f_heap st'
       = heap_after_pass h1 (PFAS.f_b st) zeroed unew uclamp b1l
    /\ PFAS.f_u st' = length h1
    /\ PFAS.f_b st' = S (length h1)
    /\ PFAS.f_active st' = active
    /\ PFAS.f_z st' = PFAS.f_z st + 1.
Proof.
  unfold PFAS.frozen_pass. intros E.
  destruct (PFAS.f_gmg st) as [g|] eqn:Hg.
  - do 5 ok_step E. destruct x3 as [ls1 asv].
    do 3 ok_step E. unfold alloc in E. do 3 ok_step E.
    injection E as <- <-. simpl.
    eexists x, x1, x2, ls1, asv, x8, _, _, _.
    repeat split; try eassumption; try reflexivity.
    all: rewrite ?length_store, ?length_app, ?length_store; simpl;
      rewrite ?length_app; simpl; lia.
  - unfold alloc in E.
    do 5 ok_step E. destruct x3 as [ls1 asv].
    do 6 ok_step E.
    injection E as <- <-. simpl.
    eexists x, x1, x2, ls1, asv, x8, _, _, _.
    repeat split; try eassumption; try reflexivity.
    all: rewrite ?length_store, ?length_app, ?length_store; simpl;
      rewrite ?length_app; simpl; lia.
Qed.

Lemma constrain_length Al : forall idx ls asv ls' asv',
  for_each (PFAS.constrain_level Al) idx (ls, asv) = Ok (ls', asv') ->
  length ls' = length ls.
Proof.
  induction idx as [|i idx IH]; simpl; intros ls asv ls' asv' E.
  - now injection E as <- <-.
  - ok_step E. destruct x as [ls1 asv1].
    unfold PFAS.constrain_level in E0. do 2 ok_step E0.
    injection E0 as <- <-.
    rewrite (IH _ _ _ _ E). apply length_insert.
Qed.

(** After the restoring loop over [idx], every level whose index is in
    [idx] carries the operator saved for it, and the others are as they
    were. *)
Lemma restore_spec Al : forall idx ls ls',
  for_each (PFAS.restore_level Al) idx ls = Ok ls' ->
  length ls' = length ls
  /\ forall j lev',
       ls' !! j = Some lev' ->
       (j ∈ idx -> Al !! j = Some (A lev'))
       /\ (j ∉ idx -> ls !! j = Some lev').
Proof.
  induction idx as [|i idx IH]; simpl; intros ls ls' E.
  - injection E as <-. split; [reflexivity|].
    intros j lev' Hj. split; [intros Hin; inversion Hin | auto].
  - ok_step E. unfold PFAS.restore_level in E0. do 2 ok_step E0.
    injection E0 as <-. apply getitem_Ok in E1, E2.
    destruct (IH _ _ E) as [Hlen Hspec].
    split; [now rewrite Hlen, length_insert|].
    intros j lev' Hj. destruct (Hspec j lev' Hj) as [Hin Hout].
    destruct (decide (j ∈ idx)) as [Hj'|Hj'].
    + split; [auto|]. intros Hn. exfalso. apply Hn. now right.
    + specialize (Hout Hj'). destruct (decide (j = i)) as [->|Hne].
      * rewrite list_lookup_insert_eq in Hout
          by (now apply lookup_lt_is_Some_1; eauto).
        injection Hout as <-. simpl. split; [auto|].
        intros Hn. exfalso. apply Hn. now left.
      * rewrite list_lookup_insert_ne in Hout by congruence.
        split; [|auto].
        intros Hin'. apply elem_of_cons in Hin' as [?|?]; congruence.
Qed.

Lemma restore_all Al ls ls' :
  for_each (PFAS.restore_level Al) (seq 0 (length ls)) ls = Ok ls' ->
  length Al = length ls ->
  map A ls' = Al.
Proof.
  intros E HAl. destruct (restore_spec _ _ _ _ E) as [Hlen Hspec].
  apply list_eq. intros j. rewrite list_lookup_fmap.
  destruct (ls' !! j) as [lev'|] eqn:Hj; simpl.
  - symmetry. apply (Hspec j lev' Hj).
    apply elem_of_seq. apply lookup_lt_Some in Hj. lia.
  - symmetry. apply lookup_ge_None. apply lookup_ge_None in Hj. lia.
Qed.

(** One pass keeps the operators: once it has returned, every level holds
    the operator saved in [Alist], which is the one it held before the
    first pass. *)
Lemma frozen_pass_keeps_A orig cycle tol k st brk st' :
  PFAS.frozen_pass cycle tol k st = Ok (brk, st') ->
  map A (PFAS.levels (PFAS.f_self st)) = orig ->
  (forall g, PFAS.f_gmg st = Some g -> PFAS.Alist g = orig) ->
  map A (PFAS.levels (PFAS.f_self st')) = orig
  /\ (forall g, PFAS.f_gmg st' = Some g -> PFAS.Alist g = orig).
Proof.
  intros E HA HAl. apply frozen_pass_Ok in E. simpl in E.
  destruct E as (active & zeroed & asv0 & ls1 & asv1 & ls2 & unew & uclamp
                 & gres & _ & _ & Hcon & Hres & Hls & Hg & _).
  assert (HAl' : match PFAS.f_gmg st with
                 | Some g => PFAS.Alist g
                 | None => map A (PFAS.levels (PFAS.f_self st))
                 end = orig)
    by (destruct (PFAS.f_gmg st); auto).
  rewrite HAl' in *. apply constrain_length in Hcon.
  split.
  - rewrite Hls. apply (restore_all _ _ _ Hres).
    rewrite Hcon, <- HA. apply length_map.
  - intros g Hg'. rewrite Hg in Hg'. now injection Hg' as <-.
Qed.

Lemma frozen_loop_keeps_A orig cycle tol k : forall n st st',
  PFAS.frozen_loop n cycle tol k st = Ok st' ->
  map A (PFAS.levels (PFAS.f_self st)) = orig ->
  (forall g, PFAS.f_gmg st = Some g -> PFAS.Alist g = orig) ->
  map A (PFAS.levels (PFAS.f_self st')) = orig.
Proof.
  induction n as [|n IH]; intros st st' E HA HAl; simpl in E;
    do 2 ok_step E.
  - now injection E as <-.
  - destruct (tol <? x / x0)%float; [|now injection E as <-].
    ok_step E. destruct x1 as [brk st1].
    destruct (frozen_pass_keeps_A _ _ _ _ _ _ _ E2 HA HAl) as [HA1 HAl1].
    destruct brk; [now injection E as <- | eauto].
Qed.

(** C1.  Whenever the frozen linear correction returns (because its loop
    condition fails, because [maxiters] is reached or through the [break]
    of line 508), every level of the hierarchy holds the operator [A] it
    held when the phase began. *)
Theorem frozen_phase_restores_A n cycle tol k st st' :
  PFAS.f_gmg st = None ->
  PFAS.frozen_loop n cycle tol k st = Ok st' ->
  map A (PFAS.levels (PFAS.f_self st'))
  = map A (PFAS.levels (PFAS.f_self st)).
Proof.
  intros Hg E. apply (frozen_loop_keeps_A _ _ _ _ _ _ _ E); [reflexivity|].
  intros g Hg'. congruence.
Qed.

(** The first pass writes the zeros into the array of the caller and
    rebinds [b] to a copy of the saved right-hand side. *)
Lemma first_pass_rebinds cycle tol k st brk st' :
  PFAS.f_gmg st = None ->
  PFAS.f_b st < length (PFAS.f_heap st) ->
  PFAS.frozen_pass cycle tol k st = Ok (brk, st') ->
  exists zeroed,
    np.index_fill (load (PFAS.f_b st) (PFAS.f_heap st)) (PFAS.f_active st)
      0%float = Ok zeroed
    /\ PFAS.rebound (PFAS.f_b st) zeroed
         (load (PFAS.f_b st) (PFAS.f_heap st)) st'.
Proof.
  intros Hg Hb E. apply frozen_pass_Ok in E. simpl in E.
  rewrite Hg in E.
  destruct E as (active & zeroed & asv0 & ls1 & asv1 & ls2 & unew & uclamp
                 & gres & Hact & Hz & _ & _ & _ & Hg' & Hh & _ & Hb' & _).
  injection Hact as <-.
  rewrite load_app_old in Hz by assumption.
  set (h0 := PFAS.f_heap st) in *. set (fb := PFAS.f_b st) in *.
  set (h1 := h0 ++ [load fb h0]) in *.
  assert (Hlen1 : length h1 = S (length h0))
    by (unfold h1; rewrite length_app; simpl; lia).
  exists zeroed. split; [exact Hz|].
  unfold PFAS.rebound. rewrite Hh, Hb', length_heap_after_pass.
  rewrite load_new_b.
  rewrite !load_heap_after_pass by lia.
  rewrite decide_True by reflexivity.
  assert (Hb1 : load (length h0) (store (length h1) uclamp
                                    (store fb zeroed h1 ++ [unew]))
                = load fb h0).
  { rewrite load_store_ne by lia.
    rewrite load_app_old by (rewrite length_store; lia).
    rewrite load_store_ne by lia. apply load_app_new. }
  repeat split; try lia; try assumption.
  eexists. split; [exact Hg'|]. simpl.
  rewrite ?length_heap_after_pass, ?load_heap_after_pass by lia.
  rewrite decide_False by lia.
  repeat split; try lia. apply load_app_new.
Qed.

(** A later pass leaves the array of the caller alone. *)
Lemma later_pass_rebound caller zeroed orig cycle tol k st brk st' :
  PFAS.rebound caller zeroed orig st ->
  PFAS.frozen_pass cycle tol k st = Ok (brk, st') ->
  PFAS.rebound caller zeroed orig st'.
Proof.
  intros (Hc & Hne & Hz & Ho & g & Hg & Hb1 & Hb1c & Hb1b & Hb1o) E.
  apply frozen_pass_Ok in E. simpl in E. rewrite Hg in E.
  destruct E as (active & zeroed' & asv0 & ls1 & asv1 & ls2 & unew & uclamp
                 & gres & _ & _ & _ & _ & _ & Hg' & Hh & _ & Hb' & _).
  set (h0 := PFAS.f_heap st) in *. set (fb := PFAS.f_b st) in *.
  unfold PFAS.rebound. rewrite Hh, Hb', length_heap_after_pass.
  rewrite load_new_b.
  rewrite !load_heap_after_pass by lia.
  rewrite decide_False by congruence.
  assert (Hb1' : load (PFAS.b1 g) (store (length h0) uclamp
                                     (store fb zeroed' h0 ++ [unew]))
                 = orig).
  { rewrite load_store_ne by lia.
    rewrite load_app_old by (rewrite length_store; lia).
    rewrite load_store_ne by congruence. exact Hb1o. }
  repeat split; try lia; try assumption.
  eexists. split; [exact Hg'|]. simpl.
  rewrite ?length_heap_after_pass, ?load_heap_after_pass by lia.
  rewrite decide_False by congruence.
  repeat split; try lia. exact Hb1o.
Qed.

Lemma frozen_loop_rebound caller zeroed orig cycle tol k : forall n st st',
  PFAS.rebound caller zeroed orig st ->
  PFAS.frozen_loop n cycle tol k st = Ok st' ->
  PFAS.rebound caller zeroed orig st'.
Proof.
  induction n as [|n IH]; intros st st' HJ E; simpl in E; do 2 ok_step E.
  - now injection E as <-.
  - destruct (tol <? x / x0)%float; [|now injection E as <-].
    ok_step E. destruct x1 as [brk st1].
    pose proof (later_pass_rebound _ _ _ _ _ _ _ _ _ HJ E2) as HJ1.
    destruct brk; [now injection E as <- | eauto].
Qed.

(** The frozen phase as a whole: if it has made a pass, the array that the
    name [b] was bound to on entry holds the zeros of the first pass, and
    [b] is bound to a copy of the original right-hand side. *)
Lemma frozen_phase_zeroes n cycle tol k st st' :
  PFAS.f_gmg st = None ->
  PFAS.f_b st < length (PFAS.f_heap st) ->
  PFAS.frozen_loop n cycle tol k st = Ok st' ->
  PFAS.gmg_called st' = true ->
  exists zeroed,
    np.index_fill (load (PFAS.f_b st) (PFAS.f_heap st)) (PFAS.f_active st)
      0%float = Ok zeroed
    /\ PFAS.rebound (PFAS.f_b st) zeroed
         (load (PFAS.f_b st) (PFAS.f_heap st)) st'.
Proof.
  intros Hg Hb E Hcalled.
  assert (Hno : PFAS.gmg_called st = false)
    by (unfold PFAS.gmg_called; now rewrite Hg).
  destruct n as [|n]; simpl in E; do 2 ok_step E.
  - injection E as <-. congruence.
  - destruct (tol <? x / x0)%float; [|injection E as <-; congruence].
    ok_step E. destruct x1 as [brk st1].
    destruct (first_pass_rebinds _ _ _ _ _ _ Hg Hb E2) as (zeroed & Hz & HJ).
    exists zeroed. split; [exact Hz|].
    destruct brk; [now injection E as <-|].
    eapply frozen_loop_rebound; eassumption.
Qed.

(** The projected cycling writes to the array [u] only. *)
Lemma cycling_step_frame fuel b cycle k accel st brk st' :
  PFAS.cycling_step fuel b cycle k accel st = Ok (brk, st') ->
  (exists u', PFAS.c_heap st' = store (PFAS.c_u st) u' (PFAS.c_heap st))
  /\ PFAS.c_u st' = PFAS.c_u st
  /\ PFAS.levels (PFAS.c_self st') = PFAS.levels (PFAS.c_self st).
Proof.
  intros E. unfold PFAS.cycling_step in E.
  ok_step E. destruct x as [u' v]. do 6 ok_step E.
  injection E as <- <-. simpl. eauto.
Qed.

Lemma cycling_loop_frame caller orig fuel b cycle tol k accel :
  forall n st st',
    PFAS.cycling_loop n fuel b cycle tol k accel st = Ok st' ->
    caller < length (PFAS.c_heap st) ->
    PFAS.c_u st <> caller ->
    load caller (PFAS.c_heap st) = orig ->
    caller < length (PFAS.c_heap st')
    /\ load caller (PFAS.c_heap st') = orig
    /\ PFAS.levels (PFAS.c_self st') = PFAS.levels (PFAS.c_self st).
Proof.
  induction n as [|n IH]; intros st st' E Hc Hu Ho; simpl in E; ok_step E.
  - now injection E as <-.
  - destruct (tol <? x / PFAS.c_normb st)%float; [|now injection E as <-].
    ok_step E. destruct x0 as [brk st1].
    destruct (cycling_step_frame _ _ _ _ _ _ _ _ E1)
      as ((u' & Hh) & Hu1 & Hl1).
    assert (caller < length (PFAS.c_heap st1)
            /\ load caller (PFAS.c_heap st1) = orig) as [Hc1 Ho1].
    { rewrite Hh, length_store. split; [assumption|].
      rewrite load_store_ne by congruence. assumption. }
    destruct brk.
    + injection E as <-. auto.
    + destruct (IH _ _ E Hc1) as (? & ? & ?); [congruence|assumption|].
      repeat split; congruence.
Qed.

Lemma finish_Ok st res :
  PFAS.finish st = Ok res ->
  PFAS.r_heap res = PFAS.f_heap st
  /\ PFAS.r_b res = PFAS.f_b st
  /\ PFAS.r_gmg_called res = PFAS.gmg_called st
  /\ PFAS.levels (PFAS.r_self res) = PFAS.levels (PFAS.f_self st).
Proof.
  unfold PFAS.finish. intros E. do 2 ok_step E.
  injection E as <-. simpl. auto.
Qed.

(** The phases of a [solve] that returns. *)
Lemma solve_iterative_Ok fuel self h b u0 cycle tol maxiters k accel res :
  PFAS.solve_iterative fuel self h b u0 cycle tol maxiters k accel = Ok res ->
  exists st0 st st',
    PFAS.enter_cycling self h b u0 tol = Ok st0
    /\ PFAS.cycling_loop maxiters fuel b cycle tol k accel st0 = Ok st
    /\ PFAS.frozen_loop (maxiters - PFAS.c_z st) cycle tol k
         (PFAS.enter_frozen b st) = Ok st'
    /\ PFAS.finish st' = Ok res.
Proof.
  unfold PFAS.solve_iterative. intros E. do 3 ok_step E. eauto 10.
Qed.

(** The operators are also those of the hierarchy [solve] was called on. *)
Lemma solve_restores_A fuel self h b u0 cycle tol maxiters k accel res :
  b < length h ->
  PFAS.solve_iterative fuel self h b u0 cycle tol maxiters k accel = Ok res ->
  map A (PFAS.levels (PFAS.r_self res)) = map A (PFAS.levels self).
Proof.
  intros Hb E. apply solve_iterative_Ok in E.
  destruct E as (st0 & st & st' & E0 & E1 & E2 & E3).
  apply enter_cycling_Ok in E0.
  destruct E0 as (g & uv & _ & _ & Hu & Hh & Hself & _).
  eapply (cycling_loop_frame b (load b h)) in E1 as (_ & _ & Hl).
  - apply finish_Ok in E3 as (_ & _ & _ & ->).
    rewrite (frozen_loop_keeps_A
               (map A (PFAS.levels (PFAS.c_self st))) _ _ _ _
               (PFAS.enter_frozen b st) _ E2 eq_refl)
      by (intros ? [=]).
    now rewrite Hl, Hself.
  - rewrite Hh, length_app. simpl. lia.
  - lia.
  - rewrite Hh. now apply load_app_old.
Qed.

(** C10.  When the frozen linear correction has made at least one pass,
    the array the caller passed as [b] holds, after [solve] has returned,
    its original entries with [0.0] written at the indices of the active
    set with which the phase was entered; the local name [b] is bound to
    another array, a copy of the saved right-hand side, so that nothing
    writes the original entries back. *)
Theorem solve_zeroes_caller_b fuel self h b u0 cycle tol maxiters k accel
    res :
  b < length h ->
  PFAS.solve_iterative fuel self h b u0 cycle tol maxiters k accel = Ok res ->
  PFAS.r_gmg_called res = true ->
  exists st zeroed,
    (st0 ← PFAS.enter_cycling self h b u0 tol;
     PFAS.cycling_loop maxiters fuel b cycle tol k accel st0) = Ok st
    /\ np.index_fill (load b h) (elements (PFAS.c_new st)) 0%float
       = Ok zeroed
    /\ load b (PFAS.r_heap res) = zeroed
    /\ PFAS.r_b res <> b
    /\ load (PFAS.r_b res) (PFAS.r_heap res) = load b h.
Proof.
  intros Hb E Hcalled. apply solve_iterative_Ok in E.
  destruct E as (st0 & st & st' & E0 & E1 & E2 & E3).
  exists st. rewrite E0. simpl. rewrite E1.
  apply enter_cycling_Ok in E0.
  destruct E0 as (g & uv & _ & _ & Hu & Hh & _).
  eapply (cycling_loop_frame b (load b h)) in E1 as (Hc & Ho & _);
    [|rewrite Hh, length_app; simpl; lia | lia
     |rewrite Hh; now apply load_app_old].
  apply finish_Ok in E3 as (Hrh & Hrb & Hrg & _).
  rewrite Hrg in Hcalled.
  destruct (frozen_phase_zeroes _ _ _ _ (PFAS.enter_frozen b st) _ eq_refl
              Hc E2 Hcalled)
    as (zeroed & Hz & _ & Hne & Hload & Horig & _).
  simpl in Hz, Hne, Hload, Horig. rewrite Ho in Hz, Horig.
  exists zeroed. rewrite Hrh, Hrb. auto.
Qed.

End FrozenPhase.

Lemma frozen_phase_restores_A_witness :
  exists st st',
    (st0 ← @PFAS.enter_cycling Dense.scipy Dense.pfas
             [[-1; 3; -5; 1]%float] 0 U0None 1e-8%float;
     PFAS.cycling_loop 4 100 0 "V" 1e-8%float 0 None st0) = Ok st
    /\ PFAS.frozen_loop 3 "V" 1e-8%float 0 (PFAS.enter_frozen 0 st) = Ok st'
    /\ PFAS.gmg_called st' = true
    /\ map A (PFAS.levels (PFAS.f_self st'))
       = map A (PFAS.levels (PFAS.f_self (PFAS.enter_frozen 0 st))).
Proof.
  eexists _, _. split; [vm_compute; reflexivity|].
  split; [vm_compute; reflexivity|]. split; [reflexivity|].
  apply (@frozen_phase_restores_A Dense.scipy 3 "V"%string 1e-8%float 0).
  - reflexivity.
  - vm_compute. reflexivity.
Defined.

Lemma solve_zeroes_caller_b_witness :
  exists res,
    @PFAS.solve_iterative Dense.scipy 100 Dense.pfas [[-1; 3; -5; 1]%float]
      0 U0None "V" 1e-8%float 4 0 None = Ok res
    /\ exists st zeroed,
         (st0 ← @PFAS.enter_cycling Dense.scipy Dense.pfas
                  [[-1; 3; -5; 1]%float] 0 U0None 1e-8%float;
          PFAS.cycling_loop 4 100 0 "V" 1e-8%float 0 None st0) = Ok st
         /\ np.index_fill (load 0 [[-1; 3; -5; 1]%float])
              (elements (PFAS.c_new st)) 0%float = Ok zeroed
         /\ load 0 (PFAS.r_heap res) = zeroed
         /\ PFAS.r_b res <> 0
         /\ load (PFAS.r_b res) (PFAS.r_heap res)
            = load 0 [[-1; 3; -5; 1]%float].
Proof.
  eexists. split; [vm_compute; reflexivity|].
  apply (@solve_zeroes_caller_b Dense.scipy 100 Dense.pfas
           [[-1; 3; -5; 1]%float] 0 U0None "V"%string 1e-8%float 4 0 None).
  - simpl. lia.
  - vm_compute. reflexivity.
  - reflexivity.
Defined.

(** The same run, evaluated: the array of the caller ends as
    [[-1; 0; -5; 0]], and the name [b] is bound to a copy of the original
    right-hand side. *)
Lemma caller_rhs_after_solve :
  exists res,
    @PFAS.solve_iterative Dense.scipy 100 Dense.pfas [[-1; 3; -5; 1]%float]
      0 U0None "V" 1e-8%float 4 0 None = Ok res
    /\ load 0 (PFAS.r_heap res) = [-1; 0; -5; 0]%float
    /\ load (PFAS.r_b res) (PFAS.r_heap res) = [-1; 3; -5; 1]%float.
Proof.
  eexists. split; [vm_compute; reflexivity|]. split; reflexivity.
Qed.

(** * Further properties *)

(** ** Comparisons of floats *)

Lemma SFcompare_antisym (x y : spec_float) :
  SFcompare y x = option_map CompOpp (SFcompare x y).
Proof.
  destruct x as [[]|[]| |[] m e], y as [[]|[]| |[] m' e']; simpl;
    try reflexivity.
  all: rewrite (Z.compare_antisym e e'); destruct (e ?= e')%Z; simpl;
    try reflexivity.
  all: pose proof (Pos.compare_cont_antisym m m' Eq) as HA; simpl in HA;
    now rewrite <- HA.
Qed.

Lemma SFcompare_refl (x : spec_float) :
  x <> S754_nan -> SFcompare x x = Some Eq.
Proof.
  destruct x as [[]|[]| |[] m e]; simpl; intros Hx; try reflexivity;
    try congruence.
  all: rewrite Z.compare_refl, Pos.compare_cont_refl; reflexivity.
Qed.

Lemma float_ltb_antisym (x y : float) :
  (x <? y)%float = true -> (y <? x)%float = false.
Proof.
  rewrite !FloatAxioms.ltb_spec. unfold SFltb.
  rewrite (SFcompare_antisym (Prim2SF x)).
  destruct (SFcompare (Prim2SF x) (Prim2SF y)) as [[]|]; simpl; congruence.
Qed.

Lemma float_ltb_not_nan_r (x y : float) :
  (x <? y)%float = true -> is_nan y = false.
Proof.
  rewrite FloatAxioms.ltb_spec. unfold SFltb, is_nan.
  rewrite FloatAxioms.eqb_spec. unfold SFeqb.
  intros Hlt.
  rewrite SFcompare_refl; [reflexivity|].
  intros Hy. rewrite Hy in Hlt.
  destruct (Prim2SF x); simpl in Hlt; discriminate.
Qed.

Lemma float_ltb_zero_div (t y : float) :
  (t <? 0 / y)%float = true -> (t <? 0)%float = true.
Proof.
  rewrite !FloatAxioms.ltb_spec, FloatAxioms.div_spec.
  change (Prim2SF 0) with (S754_zero false).
  unfold SF64div, SFdiv.
  destruct (Prim2SF y) as [sy|sy| |sy my ey];
    destruct (Prim2SF t) as [st|st| |st mt et]; simpl; try discriminate;
    try reflexivity.
  all: destruct st; simpl; try discriminate; try reflexivity.
Qed.

(** ** The active set *)

Lemma elem_of_mask_select_seq (m : list bool) : forall s n i,
  i ∈ np.mask_select (seq s n) m
  <-> s <= i < s + n /\ m !! (i - s) = Some true.
Proof.
  induction m as [|c m IH]; intros s n i.
  - destruct n; simpl; rewrite elem_of_nil;
      (split; [tauto | intros [_ Hm]; discriminate]).
  - destruct n as [|n]; simpl.
    + rewrite elem_of_nil. split; [tauto | lia].
    + destruct c.
      * rewrite elem_of_cons, IH. split.
        -- intros [->|[Hi Hm]].
           ++ split; [lia|]. now rewrite Nat.sub_diag.
           ++ split; [lia|].
              replace (i - s) with (S (i - S s)) by lia. exact Hm.
        -- intros [Hi Hm].
           destruct (decide (i = s)) as [->|Hne]; [now left|right].
           split; [lia|].
           replace (i - s) with (S (i - S s)) in Hm by lia. exact Hm.
      * rewrite IH. split.
        -- intros [Hi Hm]. split; [lia|].
           replace (i - s) with (S (i - S s)) by lia. exact Hm.
        -- intros [Hi Hm].
           destruct (decide (i = s)) as [->|Hne].
           ++ rewrite Nat.sub_diag in Hm. discriminate.
           ++ split; [lia|].
              replace (i - s) with (S (i - S s)) in Hm by lia. exact Hm.
Qed.

Lemma mask_select_seq_sorted (m : list bool) : forall s n,
  StronglySorted lt (np.mask_select (seq s n) m).
Proof.
  induction m as [|c m IH]; intros s n.
  - destruct n; constructor.
  - destruct n as [|n]; simpl; [constructor|].
    destruct c; [|apply IH].
    constructor; [apply IH|].
    apply Forall_forall. intros i Hi.
    apply elem_of_mask_select_seq in Hi. lia.
Qed.

Lemma active_mask_lookup (u r : vec) (i : nat) :
  np.band (np.lt u 1e-16%float) (np.gt r 0%float) !! i = Some true
  <-> exists ui ri,
        u !! i = Some ui /\ r !! i = Some ri
        /\ (ui <? 1e-16)%float = true /\ (0 <? ri)%float = true.
Proof.
  unfold np.band, np.lt, np.gt.
  rewrite lookup_zip_with, !list_lookup_fmap.
  destruct (u !! i) as [ui|], (r !! i) as [ri|]; simpl.
  - split.
    + intros E. injection E as E. apply andb_true_iff in E as [? ?].
      eauto 10.
    + intros (? & ? & E1 & E2 & H1 & H2).
      injection E1 as <-. injection E2 as <-. now rewrite H1, H2.
  - split; [discriminate|]. intros (? & ? & _ & ? & _). discriminate.
  - split; [discriminate|]. intros (? & ? & ? & _). discriminate.
  - split; [discriminate|]. intros (? & ? & ? & _). discriminate.
Qed.

(** X1.  [active_set] (lines 359-360): for arrays [u] and [r] of equal
    length it returns, in increasing order and hence without repetition,
    exactly the indices [i] with [u_i < 1e-16] and [r_i > 0.0]. *)
Theorem active_set_spec (u r : vec) :
  length u = length r ->
  exists idx,
    PFAS.active_set u r = Ok idx
    /\ (forall i,
          i ∈ idx
          <-> exists ui ri,
                u !! i = Some ui /\ r !! i = Some ri
                /\ (ui <? 1e-16)%float = true /\ (0 <? ri)%float = true)
    /\ StronglySorted lt idx.
Proof.
  intros Hlen. unfold PFAS.active_set.
  assert (Hm : length (np.band (np.lt u 1e-16%float) (np.gt r 0%float))
               = length r).
  { unfold np.band, np.lt, np.gt.
    rewrite length_zip_with, !length_map. lia. }
  rewrite decide_True by exact Hm.
  eexists. split; [reflexivity|]. split.
  - intros i. unfold np.arange. rewrite elem_of_mask_select_seq.
    rewrite Nat.sub_0_r, active_mask_lookup. split; [tauto|].
    intros (ui & ri & Hu & Hr & H1 & H2). split; [|eauto 10].
    apply lookup_lt_Some in Hr. lia.
  - apply mask_select_seq_sorted.
Qed.

Lemma active_set_spec_witness :
  length [0; 1; 0]%float = length [1; 1; -1]%float
  /\ exists idx,
       PFAS.active_set [0; 1; 0]%float [1; 1; -1]%float = Ok idx
       /\ (forall i,
             i ∈ idx
             <-> exists ui ri,
                   [0; 1; 0]%float !! i = Some ui
                   /\ [1; 1; -1]%float !! i = Some ri
                   /\ (ui <? 1e-16)%float = true /\ (0 <? ri)%float = true)
       /\ StronglySorted lt idx.
Proof.
  split; [reflexivity|].
  apply (active_set_spec [0; 1; 0]%float [1; 1; -1]%float). reflexivity.
Defined.

(** X2.  The merit function vanishes on the active set: where
    [active_set u r] and [compute_Fomega u r] both return, the entry of the
    merit vector at every index of the active set is [0.0]. *)
Theorem merit_zero_on_active_set (u r : vec) (idx : list nat) (f : vec) :
  PFAS.active_set u r = Ok idx ->
  compute_Fomega u r = Ok f ->
  forall i, i ∈ idx -> f !! i = Some 0%float.
Proof.
  intros Ha Hf i Hi.
  assert (Hlen : length u = length r).
  { unfold compute_Fomega in Hf. unfold np.gt in Hf.
    rewrite length_map in Hf.
    destruct (decide (length u = length r)); [assumption|discriminate]. }
  unfold PFAS.active_set in Ha.
  destruct (decide _) in Ha; [|discriminate]. injection Ha as <-.
  unfold np.arange in Hi.
  apply elem_of_mask_select_seq in Hi as [_ Hi].
  rewrite Nat.sub_0_r in Hi.
  apply active_mask_lookup in Hi as (ui & ri & Hu & Hr & H1 & H2).
  rewrite compute_Fomega_eq in Hf by assumption. injection Hf as <-.
  rewrite lookup_zip_with, Hu. simpl. rewrite Hr. simpl.
  rewrite (float_ltb_antisym _ _ H1). unfold np.minimum1.
  now rewrite (float_ltb_antisym _ _ H2), (float_ltb_not_nan_r _ _ H2).
Qed.

Lemma merit_zero_on_active_set_witness :
  PFAS.active_set [0; 1; 0]%float [1; 1; -1]%float = Ok [0]
  /\ compute_Fomega [0; 1; 0]%float [1; 1; -1]%float = Ok [0; 1; -1]%float
  /\ forall i, i ∈ [0] -> [0; 1; -1]%float !! i = Some 0%float.
Proof.
  split; [reflexivity|]. split; [reflexivity|].
  apply (merit_zero_on_active_set [0; 1; 0]%float [1; 1; -1]%float);
    reflexivity.
Defined.

(** ** [multigrid_solver.solve]: the bookkeeping of the loop *)

Section LinearSolve.
Context `{SciPy}.

Lemma mg_lvl_solve_returns self u b cycle k :
  2 <= length (MG.levels self) ->
  exists u' v, MG.lvl_solve self 0 u b cycle k = Ok (u', v).
Proof.
  intros HL. unfold MG.lvl_solve.
  destruct (lvl_solve_from_returns self (length (MG.levels self) - 0) 0 u b
              cycle k eq_refl) as (u' & inner & ->); [simpl; lia|].
  eauto.
Qed.

Lemma solve_loop_returns b cycle tol normb k : forall n self u z log,
  2 <= length (MG.levels self) ->
  MG.residuals self <> [] ->
  exists r new,
    MG.solve_loop n self b u cycle tol normb k z log = Ok r
    /\ z <= MG.run_z r <= z + n
    /\ length (MG.run_cycles r) = length log + (MG.run_z r - z)
    /\ MG.residuals (MG.run_self r) = MG.residuals self ++ new
    /\ length new = MG.run_z r - z
    /\ MG.levels (MG.run_self r) = MG.levels self
    /\ (MG.run_z r = z -> MG.run_u r = u).
Proof.
  induction n as [|n IH]; intros self u z log HL Hres; simpl.
  - destruct (MG.residuals self) as [|r0 rs] eqn:Er using rev_ind;
      [congruence|]. clear IHrs.
    rewrite getitem_last_snoc. simpl.
    eexists _, []. split; [reflexivity|]. simpl.
    rewrite app_nil_r. repeat split; try lia; auto.
  - destruct (MG.residuals self) as [|r0 rs] eqn:Er using rev_ind;
      [congruence|]. clear IHrs.
    rewrite getitem_last_snoc. simpl.
    destruct (tol <? r0 / normb)%float.
    + destruct (mg_lvl_solve_returns self u b cycle k HL) as (u' & v & ->).
      simpl.
      destruct (getitem_lt (MG.levels self) 0) as (lev & -> & _); [lia|].
      simpl.
      set (self' := MG.append_residual _ _).
      destruct (IH self' u' (z + 1) (log ++ [v])) as (r & new & E & Hz & Hc
                                                      & Hr & Hn & Hl & _).
      { exact HL. }
      { unfold self'. simpl. rewrite Er. now destruct (rs ++ [r0]). }
      exists r. eexists (_ :: new). split; [exact E|].
      rewrite Hc, Hr, Hl, length_app. unfold self'. simpl. rewrite Er.
      rewrite <- app_assoc. simpl.
      repeat split; try lia.
    + eexists _, []. split; [reflexivity|]. simpl.
      rewrite app_nil_r. repeat split; try lia; auto.
Qed.

(** A solver of at least two levels that is asked for at most [maxiters]
    cycles returns, and has made no more. *)
Lemma mg_solve_iterative_bound self b (u0 : option vec) cycle tol maxiters k :
  2 <= length (MG.levels self) ->
  MG.self_level self < length (MG.levels self) ->
  exists r,
    MG.solve_iterative self b u0 cycle tol maxiters k = Ok r
    /\ MG.run_z r <= maxiters
    /\ length (MG.run_cycles r) = MG.run_z r.
Proof.
  intros HL Hs. unfold MG.solve_iterative.
  destruct (getitem_lt (MG.levels self) (MG.self_level self) Hs)
    as (lev & -> & _).
  simpl.
  set (self' := MG.append_residual _ _).
  set (u := match u0 with Some v => v | None => np.zeros_like b end).
  destruct (solve_loop_returns b cycle tol (norm b) k maxiters self' u 0 [])
    as (r & new & E & Hz & Hc & _).
  { exact HL. }
  { unfold self'. simpl. now destruct (MG.residuals self). }
  exists r. split; [exact E|]. simpl in Hc. lia.
Qed.

(** X3.  On a hierarchy of at least two levels no list access of the branch
    [cycle != 'fmg'] of [multigrid_solver.solve] can fail, whatever the
    cycle string, the tolerance and the data: it returns after
    [z <= maxiters] cycles, has appended [z + 1] residuals to
    [self.residuals] (the list is not reset, so the residuals of earlier
    calls stay in front), has left [self.levels] as it was, and returns the
    initial iterate when no cycle ran. *)
Theorem mg_solve_returns self b (u0 : option vec) cycle tol maxiters k :
  2 <= length (MG.levels self) ->
  MG.self_level self < length (MG.levels self) ->
  exists r new,
    MG.solve_iterative self b u0 cycle tol maxiters k = Ok r
    /\ MG.run_z r <= maxiters
    /\ length (MG.run_cycles r) = MG.run_z r
    /\ MG.residuals (MG.run_self r) = MG.residuals self ++ new
    /\ length new = MG.run_z r + 1
    /\ MG.levels (MG.run_self r) = MG.levels self
    /\ (MG.run_z r = 0 -> MG.run_u r = default (np.zeros_like b) u0).
Proof.
  intros HL Hs. unfold MG.solve_iterative.
  destruct (getitem_lt (MG.levels self) (MG.self_level self) Hs)
    as (lev & -> & _).
  simpl.
  set (self' := MG.append_residual _ _).
  set (u := match u0 with Some v => v | None => np.zeros_like b end).
  destruct (solve_loop_returns b cycle tol (norm b) k maxiters self' u 0 [])
    as (r & new & E & Hz & Hc & Hr & Hn & Hl & Hu).
  { exact HL. }
  { unfold self'. simpl. now destruct (MG.residuals self). }
  exists r. eexists (_ :: new). split; [exact E|].
  rewrite Hc, Hr, Hl. unfold self'. simpl. rewrite <- app_assoc. simpl.
  repeat split; try lia.
  intros Hz0. rewrite Hu by lia. unfold u. now destruct u0.
Qed.

(** ** Cycle strings that [lvl_solve] does not know *)

(** X4.  A cycle string that is none of ['W'], ['V'], ['FV'] and ['FW'] is
    accepted silently: on a level with at least two coarser levels below it,
    [multigrid_solver.lvl_solve] (lines 55-98) makes no recursive call and
    no coarse solve, and the coarse-grid correction it adds is the
    prolongation of the zero vector. *)
Theorem mg_unknown_cycle self lvl u b cycle k lev nxt :
  MG.levels self !! lvl = Some lev ->
  MG.levels self !! (lvl + 1) = Some nxt ->
  lvl + 2 < length (MG.levels self) ->
  cycle ∉ ["W"; "V"; "FV"; "FW"]%string ->
  let u1 := sweeps (MG.smoother self) k (A lev) b (Some 1) u in
  let coarse_b := dot (R lev) (np.sub b (dot (A lev) u1)) in
  let u' := sweeps (MG.smoother self) k (A lev) b None
              (np.add u1 (dot (P nxt) (np.zeros_like coarse_b))) in
  MG.lvl_solve self lvl u b cycle k = Ok (u', Visit lvl cycle u b u' []).
Proof.
  intros Hlev Hnxt Hlt Hc u1 cb u'. unfold MG.lvl_solve.
  destruct (length (MG.levels self) - lvl) as [|d] eqn:Hd; [lia|].
  simpl. apply getitem_Ok in Hlev, Hnxt. rewrite Hlev. simpl.
  rewrite below_coarse_true by assumption.
  destruct (String.eqb_spec cycle "W") as [->|HW];
    [exfalso; apply Hc; set_solver|].
  destruct (String.eqb_spec cycle "V") as [->|HV];
    [exfalso; apply Hc; set_solver|].
  destruct (String.eqb_spec cycle "FV") as [->|HFV];
    [exfalso; apply Hc; set_solver|].
  destruct (String.eqb_spec cycle "FW") as [->|HFW];
    [exfalso; apply Hc; set_solver|].
  simpl. rewrite Hnxt. reflexivity.
Qed.

(** X5.  Likewise for [linear_pfas_solver.lvl_solve] (lines 265-320) and a
    cycle string that is none of ['W'], ['V'], ['FV'], ['FW'] and ['fmgV']:
    no coarse visit is made, and the correction that is prolongated is
    [R·u1 − R·u1]. *)
Theorem pfas_unknown_cycle fuel self lvl u b cycle k lev nxt ds :
  PFAS.levels self !! lvl = Some lev ->
  PFAS.levels self !! (lvl + 1) = Some nxt ->
  lvl + 2 < length (PFAS.levels self) ->
  PFAS.diagnostics self = Some ds ->
  cycle ∉ ["W"; "V"; "FV"; "FW"; "fmgV"]%string ->
  let u1 := sweeps (PFAS.smoother self) k (A lev) b None u in
  let coarse_u := dot (R lev) u1 in
  let u' := sweeps (PFAS.smoother self) k (A lev) b None
              (np.add u1 (dot (P nxt) (np.sub coarse_u coarse_u))) in
  PFAS.lvl_solve fuel self lvl u b cycle k
  = Ok (u', Visit lvl cycle u b u' []).
Proof.
  intros Hlev Hnxt Hlt Hd Hc u1 cu u'. unfold PFAS.lvl_solve.
  destruct (length (PFAS.levels self) - lvl) as [|d] eqn:Hlen; [lia|].
  simpl. apply getitem_Ok in Hlev, Hnxt. rewrite Hlev. simpl.
  unfold PFAS.in_diagnostics. rewrite Hd. simpl. rewrite Hnxt. simpl.
  rewrite below_coarse_true by assumption.
  destruct (String.eqb_spec cycle "W") as [->|HW];
    [exfalso; apply Hc; set_solver|].
  destruct (String.eqb_spec cycle "V") as [->|HV];
    [exfalso; apply Hc; set_solver|].
  destruct (String.eqb_spec cycle "FV") as [->|HFV];
    [exfalso; apply Hc; set_solver|].
  destruct (String.eqb_spec cycle "FW") as [->|HFW];
    [exfalso; apply Hc; set_solver|].
  destruct (String.eqb_spec cycle "fmgV") as [->|Hf];
    [exfalso; apply Hc; set_solver|].
  reflexivity.
Qed.

End LinearSolve.

Lemma mg_solve_returns_witness :
  exists r new,
    @MG.solve_iterative Dense.scipy Dense.mg [1; 1; 1; 1]%float None "V"
      1e-12%float 3 1 = Ok r
    /\ MG.run_z r <= 3
    /\ length (MG.run_cycles r) = MG.run_z r
    /\ MG.residuals (MG.run_self r) = MG.residuals Dense.mg ++ new
    /\ length new = MG.run_z r + 1
    /\ MG.levels (MG.run_self r) = MG.levels Dense.mg
    /\ (MG.run_z r = 0
        -> MG.run_u r = default (np.zeros_like [1; 1; 1; 1]%float) None).
Proof.
  apply (@mg_solve_returns Dense.scipy Dense.mg [1; 1; 1; 1]%float None
           "V"%string 1e-12%float 3 1); simpl; lia.
Defined.

Lemma mg_unknown_cycle_witness :
  let u1 := @sweeps Dense.scipy Dense.gs 1 Dense.A0 [1; 1; 1; 1]%float
              (Some 1) [0; 0; 0; 0]%float in
  let coarse_b :=
    @dot Dense.scipy Dense.R0
      (np.sub [1; 1; 1; 1]%float (@dot Dense.scipy Dense.A0 u1)) in
  let u' := @sweeps Dense.scipy Dense.gs 1 Dense.A0 [1; 1; 1; 1]%float None
              (np.add u1 (@dot Dense.scipy Dense.P1
                            (np.zeros_like coarse_b))) in
  @MG.lvl_solve Dense.scipy Dense.mg 0 [0; 0; 0; 0]%float [1; 1; 1; 1]%float
    "F" 1
  = Ok (u', Visit 0 "F" [0; 0; 0; 0]%float [1; 1; 1; 1]%float u' []).
Proof.
  apply (@mg_unknown_cycle Dense.scipy Dense.mg 0 [0; 0; 0; 0]%float
           [1; 1; 1; 1]%float "F"%string 1 Dense.level0 Dense.level1).
  - reflexivity.
  - reflexivity.
  - simpl. lia.
  - intros Hin. repeat (apply elem_of_cons in Hin as [Hin|Hin];
                        [discriminate|]).
    now apply elem_of_nil in Hin.
Defined.

Lemma pfas_unknown_cycle_witness :
  let u1 := @sweeps Dense.scipy Dense.pgs 1 Dense.A0 [1; 1; 1; 1]%float
              None [0; 0; 0; 0]%float in
  let coarse_u := @dot Dense.scipy Dense.R0 u1 in
  let u' := @sweeps Dense.scipy Dense.pgs 1 Dense.A0 [1; 1; 1; 1]%float None
              (np.add u1 (@dot Dense.scipy Dense.P1
                            (np.sub coarse_u coarse_u))) in
  @PFAS.lvl_solve Dense.scipy 100 Dense.pfas 0 [0; 0; 0; 0]%float
    [1; 1; 1; 1]%float "F" 1
  = Ok (u', Visit 0 "F" [0; 0; 0; 0]%float [1; 1; 1; 1]%float u' []).
Proof.
  apply (@pfas_unknown_cycle Dense.scipy 100 Dense.pfas 0 [0; 0; 0; 0]%float
           [1; 1; 1; 1]%float "F"%string 1 Dense.level0 Dense.level1 []).
  - reflexivity.
  - reflexivity.
  - simpl. lia.
  - reflexivity.
  - intros Hin. repeat (apply elem_of_cons in Hin as [Hin|Hin];
                        [discriminate|]).
    now apply elem_of_nil in Hin.
Defined.

(** ** [linear_pfas_solver.solve]: how it starts *)

Lemma index_copy_Ok (dst : vec) (idx : list nat) (src v : vec) :
  index_copy dst idx src = Ok v ->
  Forall (fun i => i < length dst /\ i < length src) idx
  /\ length v = length dst
  /\ forall i, v !! i = if decide (i ∈ idx) then src !! i else dst !! i.
Proof.
  unfold index_copy.
  destruct (forallb _ idx) eqn:Hall; [|discriminate].
  intros E. injection E as <-.
  assert (Hin : Forall (fun i => i < length dst /\ i < length src) idx).
  { apply Forall_forall. intros i Hi.
    rewrite forallb_forall in Hall. apply list_elem_of_In in Hi.
    specialize (Hall i Hi). apply andb_true_iff in Hall as [H1 H2].
    apply Nat.ltb_lt in H1, H2. lia. }
  split; [exact Hin|]. clear Hall.
  induction idx as [|j idx IH]; simpl.
  - split; [reflexivity|]. intros i.
    destruct (decide (i ∈ [])) as [Hi|_]; [|reflexivity].
    now apply elem_of_nil in Hi.
  - apply Forall_cons in Hin as [[Hj1 Hj2] Hin].
    destruct (IH Hin) as [Hlen Hlook].
    split; [now rewrite length_insert|].
    intros i. destruct (decide (i = j)) as [->|Hne].
    + rewrite list_lookup_insert_eq by lia.
      rewrite decide_True by (now left).
      symmetry. now apply list_lookup_lookup_total_lt.
    + rewrite list_lookup_insert_ne by congruence. rewrite Hlook.
      destruct (decide (i ∈ idx)) as [Hi|Hi].
      * rewrite decide_True by (now right). reflexivity.
      * rewrite decide_False; [reflexivity|].
        intros Hi'. apply elem_of_cons in Hi' as [?|?]; congruence.
Qed.

Section Start.
Context `{SciPy}.

Lemma initial_guess_fuel self (b : vec) u0 tol :
  PFAS.initial_guess self b u0 tol <> OutOfFuel.
Proof.
  unfold PFAS.initial_guess, index_copy, getitem.
  destruct u0 as [|v|s]; simpl; repeat (case_match; simpl); discriminate.
Qed.

Lemma enter_cycling_fuel self h b u0 tol :
  PFAS.enter_cycling self h b u0 tol <> OutOfFuel.
Proof.
  unfold PFAS.enter_cycling.
  pose proof (initial_guess_fuel self (load b h) u0 tol) as Hg.
  destruct (PFAS.initial_guess self (load b h) u0 tol) as [g| |];
    simpl; [|discriminate|congruence].
  unfold PFAS.start_iterate, PFAS.in_diagnostics, PFAS.active_set,
    compute_Fomega, getitem, alloc.
  destruct g; simpl; try discriminate.
  repeat (case_match; simpl); discriminate.
Qed.

(** The residual history and the diagnostics when the cycling begins. *)
Lemma enter_cycling_residuals self h b u0 tol st :
  PFAS.enter_cycling self h b u0 tol = Ok st ->
  (exists r0, PFAS.c_residuals st = [r0])
  /\ (exists ds, PFAS.diagnostics self = Some ds)
  /\ PFAS.c_log st = [].
Proof.
  unfold PFAS.enter_cycling. intros E.
  ok_step E. ok_step E. unfold alloc in E.
  ok_step E. ok_step E. ok_step E. ok_step E.
  injection E as <-. simpl. split; [eauto|]. split; [|reflexivity].
  unfold PFAS.in_diagnostics in E4.
  destruct (PFAS.diagnostics self); [eauto|discriminate].
Qed.

(** X6.  A [linear_pfas_solver] built with the default [diagnostics=None]
    of its constructor cannot solve: the membership tests
    ['...' in self.diagnostics] raise, so that the branch [cycle != 'fmg']
    of [solve] ends with an exception whatever its arguments. *)
Theorem default_diagnostics_raise ls cmx cmy sm cs self fuel h b u0 cycle tol
    maxiters k accel :
  PFAS.init ls cmx cmy sm cs None = Ok self ->
  exists e,
    PFAS.solve_iterative fuel self h b u0 cycle tol maxiters k accel
    = Raise e.
Proof.
  intros Hinit.
  assert (Hd : PFAS.diagnostics self = None).
  { unfold PFAS.init in Hinit. ok_step Hinit. now injection Hinit as <-. }
  unfold PFAS.solve_iterative.
  pose proof (enter_cycling_fuel self h b u0 tol) as Hf.
  destruct (PFAS.enter_cycling self h b u0 tol) as [st|e|] eqn:E;
    [|simpl; eauto|congruence].
  apply enter_cycling_residuals in E as (_ & (ds & Hds) & _). congruence.
Qed.

(** X7.  With [maxiters = 0] the branch [cycle != 'fmg'] of
    [linear_pfas_solver.solve] never returns: when the start succeeds no
    iteration runs, [residuals] holds one entry, and the exponent
    [1.0 / (len(residuals) - 1.0)] of line 559 raises
    [ZeroDivisionError]. *)
Theorem maxiters_zero_raises fuel self h b u0 cycle tol k accel :
  exists e,
    PFAS.solve_iterative fuel self h b u0 cycle tol 0 k accel = Raise e
    /\ (forall st0,
          PFAS.enter_cycling self h b u0 tol = Ok st0 ->
          e = ZeroDivisionError).
Proof.
  unfold PFAS.solve_iterative.
  pose proof (enter_cycling_fuel self h b u0 tol) as Hf.
  destruct (PFAS.enter_cycling self h b u0 tol) as [st|e|] eqn:E;
    [|simpl; exists e; split; [reflexivity|discriminate]|congruence].
  exists ZeroDivisionError. split; [|reflexivity].
  pose proof E as E'.
  apply enter_cycling_residuals in E as ((r0 & Hr) & (ds & Hds) & _).
  apply enter_cycling_Ok in E' as (g & uv & _ & _ & _ & _ & Hself & Hz & _).
  simpl. rewrite Hr. simpl. rewrite Hr. simpl.
  unfold PFAS.finish. simpl. rewrite Hr. simpl.
  unfold PFAS.in_diagnostics. simpl. rewrite Hself, Hds. simpl.
  reflexivity.
Qed.

(** X8.  The same happens for every [maxiters] when the merit residual of
    the starting iterate is [0.0] and [tol] is not negative: neither loop
    is entered ([0.0 / normb > tol] and [0.0 / 0.0 > tol] are false), and
    line 559 raises [ZeroDivisionError] where the iterate should be
    returned. *)
Theorem zero_merit_raises fuel self h b u0 cycle tol maxiters k accel st0 :
  PFAS.enter_cycling self h b u0 tol = Ok st0 ->
  PFAS.c_residuals st0 = [0%float] ->
  (tol <? 0)%float = false ->
  PFAS.solve_iterative fuel self h b u0 cycle tol maxiters k accel
  = Raise ZeroDivisionError.
Proof.
  intros E Hr Htol. unfold PFAS.solve_iterative. rewrite E. simpl.
  assert (Hq : forall y, (tol <? 0 / y)%float = false).
  { intros y. destruct (tol <? 0 / y)%float eqn:Hy; [|reflexivity].
    apply float_ltb_zero_div in Hy. congruence. }
  destruct (enter_cycling_residuals _ _ _ _ _ _ E) as (_ & (ds & Hds) & _).
  apply enter_cycling_Ok in E as (g & uv & _ & _ & _ & _ & Hself & Hz & _).
  assert (Hc : PFAS.cycling_loop maxiters fuel b cycle tol k accel st0
               = Ok st0).
  { destruct maxiters; simpl; rewrite Hr; simpl; [reflexivity|].
    now rewrite Hq. }
  rewrite Hc. simpl.
  assert (Hf : PFAS.frozen_loop (maxiters - PFAS.c_z st0) cycle tol k
                 (PFAS.enter_frozen b st0)
               = Ok (PFAS.enter_frozen b st0)).
  { destruct (maxiters - PFAS.c_z st0); simpl; rewrite Hr; simpl;
      [reflexivity|].
    change (tol <? 0 / 0)%float with (tol <? nan)%float.
    now rewrite ltb_nan_r. }
  rewrite Hf. simpl.
  unfold PFAS.finish. simpl. rewrite Hr. simpl.
  unfold PFAS.in_diagnostics. simpl. rewrite Hself, Hds. reflexivity.
Qed.

(** X9.  The zero initial guess ([u0] is [None] or ['zero'], lines 368-373,
    followed by lines 407-408): the boundary points of the finest level
    are valid indices of [b]; the starting iterate has the length of [b],
    holds the entries of [b], clamped at zero, at the boundary points, and
    [0.0] elsewhere. *)
Theorem zero_guess_start self h b u0 tol st lev0 :
  u0 = U0None \/ u0 = U0Str "zero" ->
  PFAS.levels self !! 0 = Some lev0 ->
  PFAS.enter_cycling self h b u0 tol = Ok st ->
  let bv := load b h in
  let u := load (PFAS.c_u st) (PFAS.c_heap st) in
  Forall (fun i => i < length bv) (bndry_pts lev0)
  /\ length u = length bv
  /\ forall i bi,
       bv !! i = Some bi ->
       u !! i = Some (if decide (i ∈ bndry_pts lev0)
                      then (if (bi <? 0)%float then 0%float else bi)
                      else 0%float).
Proof.
  intros Hu0 Hlev E bv u.
  apply enter_cycling_Ok in E.
  destruct E as (g & uv & Hg & Huv & Hu & Hh & _).
  assert (Hu' : u = uv).
  { unfold u. rewrite Hu, Hh. apply load_app_new. }
  rewrite Hu'. clear Hu' u Hu Hh.
  fold bv in Hg.
  assert (Hz : (lev0 ← getitem (PFAS.levels self) 0;
                if decide (length (bndry_pts lev0) = 0)
                then Ok (U0Array (np.zeros_like bv))
                else v ← index_copy (np.zeros_like bv) (bndry_pts lev0) bv;
                     Ok (U0Array v)) = Ok g)
    by (destruct Hu0 as [-> | ->]; exact Hg).
  clear Hg Hu0. apply getitem_Ok in Hlev. rewrite Hlev in Hz. simpl in Hz.
  destruct (decide (length (bndry_pts lev0) = 0)) as [Hnil|Hne].
  - injection Hz as <-. simpl in Huv. injection Huv as <-.
    apply nil_length_inv in Hnil. rewrite Hnil.
    split; [constructor|].
    rewrite mask_fill_lt, length_map. unfold np.zeros_like, np.zeros.
    rewrite length_replicate. split; [reflexivity|].
    intros i bi Hbi. rewrite list_lookup_fmap.
    rewrite lookup_replicate_2 by (now apply lookup_lt_Some in Hbi).
    destruct (decide (i ∈ [])) as [Hi|_]; [|reflexivity].
    now apply elem_of_nil in Hi.
  - ok_step Hz. injection Hz as <-. simpl in Huv. injection Huv as <-.
    apply index_copy_Ok in E as (Hall & Hlen & Hlook).
    split; [eapply Forall_impl; [exact Hall|]; simpl; tauto|].
    rewrite mask_fill_lt, length_map, Hlen.
    unfold np.zeros_like, np.zeros. rewrite length_replicate.
    split; [reflexivity|].
    intros i bi Hbi. rewrite list_lookup_fmap, Hlook.
    destruct (decide (i ∈ bndry_pts lev0)).
    + rewrite Hbi. reflexivity.
    + unfold np.zeros_like, np.zeros.
      rewrite lookup_replicate_2 by (now apply lookup_lt_Some in Hbi).
      reflexivity.
Qed.

(** X10.  A string that is none of the recognised options (lines 398-405):
    with boundary points on the finest level the start is that of the zero
    guess; without them it is [b] with its negative entries replaced by
    [0.0].  In both cases the iterate is a new array (line 407 copies), and
    the array of the caller is not written. *)
Theorem unknown_guess_start self h b s tol st lev0 :
  s ∉ ["zero"; "spsolve"; "gmg"; "gs"]%string ->
  PFAS.levels self !! 0 = Some lev0 ->
  PFAS.enter_cycling self h b (U0Str s) tol = Ok st ->
  let bv := load b h in
  let u := load (PFAS.c_u st) (PFAS.c_heap st) in
  length u = length bv
  /\ (bndry_pts lev0 = [] ->
      u = map (fun x => if (x <? 0)%float then 0%float else x) bv)
  /\ (bndry_pts lev0 <> [] ->
      forall i bi,
        bv !! i = Some bi ->
        u !! i = Some (if decide (i ∈ bndry_pts lev0)
                       then (if (bi <? 0)%float then 0%float else bi)
                       else 0%float))
  /\ PFAS.c_u st = length h
  /\ (b < length h -> load b (PFAS.c_heap st) = bv).
Proof.
  intros Hs Hlev E bv u.
  apply enter_cycling_Ok in E.
  destruct E as (g & uv & Hg & Huv & Hu & Hh & _).
  assert (Hu' : u = uv).
  { unfold u. rewrite Hu, Hh. apply load_app_new. }
  rewrite Hu'. clear Hu' u.
  assert (Hb : b < length h -> load b (PFAS.c_heap st) = bv)
    by (intros Hb; rewrite Hh; now apply load_app_old).
  fold bv in Hg. simpl in Hg.
  destruct (String.eqb_spec s "zero") as [->|H1];
    [exfalso; apply Hs; set_solver|].
  destruct (String.eqb_spec s "spsolve") as [->|H2];
    [exfalso; apply Hs; set_solver|].
  destruct (String.eqb_spec s "gmg") as [->|H3];
    [exfalso; apply Hs; set_solver|].
  destruct (String.eqb_spec s "gs") as [->|H4];
    [exfalso; apply Hs; set_solver|].
  apply getitem_Ok in Hlev. rewrite Hlev in Hg. simpl in Hg.
  destruct (decide (0 < length (bndry_pts lev0))) as [Hpos|Hnil].
  - ok_step Hg. injection Hg as <-. simpl in Huv. injection Huv as <-.
    apply index_copy_Ok in E as (Hall & Hlen & Hlook).
    rewrite mask_fill_lt, length_map, Hlen.
    unfold np.zeros_like, np.zeros. rewrite length_replicate.
    split; [reflexivity|]. split; [|split; [|auto]].
    + intros Hn. rewrite Hn in Hpos. simpl in Hpos. lia.
    + intros _ i bi Hbi. rewrite list_lookup_fmap, Hlook.
      destruct (decide (i ∈ bndry_pts lev0)).
      * rewrite Hbi. reflexivity.
      * unfold np.zeros_like, np.zeros.
        rewrite lookup_replicate_2 by (now apply lookup_lt_Some in Hbi).
        reflexivity.
  - injection Hg as <-. simpl in Huv. injection Huv as <-.
    rewrite mask_fill_lt, length_map.
    split; [reflexivity|]. split; [auto|]. split; [|auto].
    intros Hne. destruct (bndry_pts lev0); [congruence|simpl in Hnil; lia].
Qed.


End Start.

Lemma default_diagnostics_raise_witness :
  exists self e,
    @PFAS.init Dense.scipy Dense.grids 1 1 Dense.pgs None None = Ok self
    /\ PFAS.solve_iterative 100 self [[-1; 3; -5; 1]%float] 0 U0None "V"
         1e-8%float 400 1 None = Raise e.
Proof.
  eexists.
  destruct (@default_diagnostics_raise Dense.scipy Dense.grids 1 1 Dense.pgs
              None _ 100 [[-1; 3; -5; 1]%float] 0 U0None "V"%string
              1e-8%float 400 1 None eq_refl) as (e & He).
  exists e. split; [reflexivity|exact He].
Defined.

Lemma zero_merit_raises_witness :
  exists st0,
    @PFAS.enter_cycling Dense.scipy Dense.pfas [[1; 1; 1; 1]%float] 0 U0None
      1e-8%float = Ok st0
    /\ PFAS.c_residuals st0 = [0%float]
    /\ @PFAS.solve_iterative Dense.scipy 100 Dense.pfas [[1; 1; 1; 1]%float]
         0 U0None "V" 1e-8%float 400 1 None
       = Raise ZeroDivisionError.
Proof.
  eexists. split; [vm_compute; reflexivity|]. split; [reflexivity|].
  eapply (@zero_merit_raises Dense.scipy 100 Dense.pfas
            [[1; 1; 1; 1]%float] 0 U0None "V"%string 1e-8%float 400 1 None).
  - vm_compute. reflexivity.
  - reflexivity.
  - reflexivity.
Defined.

Lemma zero_guess_start_witness :
  let lev0 := @Level Dense.scipy 0 0 Dense.A0 Dense.R0 Dense.P0 [0; 3] in
  let self := @PFAS.Build Dense.scipy [lev0; Dense.level1; Dense.level2]
                Dense.pgs 1 1 0 Dense.pgs 0.15%float (Some []) [] [] in
  let h := [[-1; 3; -5; 1]%float] in
  exists st,
    PFAS.enter_cycling self h 0 U0None 1e-8%float = Ok st
    /\ load (PFAS.c_u st) (PFAS.c_heap st) = [0; 0; 0; 1]%float
    /\ Forall (fun i => i < length (load 0 h)) (bndry_pts lev0)
    /\ length (load (PFAS.c_u st) (PFAS.c_heap st)) = length (load 0 h)
    /\ forall i bi,
         load 0 h !! i = Some bi ->
         load (PFAS.c_u st) (PFAS.c_heap st) !! i
         = Some (if decide (i ∈ bndry_pts lev0)
                 then (if (bi <? 0)%float then 0%float else bi)
                 else 0%float).
Proof.
  intros lev0 self h.
  eexists. split; [vm_compute; reflexivity|]. split; [reflexivity|].
  apply (@zero_guess_start Dense.scipy self h 0 U0None 1e-8%float _ lev0).
  - left. reflexivity.
  - reflexivity.
  - vm_compute. reflexivity.
Defined.

Lemma unknown_guess_start_witness :
  let h := [[-1; 3; -5; 1]%float] in
  exists st,
    @PFAS.enter_cycling Dense.scipy Dense.pfas h 0 (U0Str "random")
      1e-8%float = Ok st
    /\ length (load (PFAS.c_u st) (PFAS.c_heap st)) = length (load 0 h)
    /\ load (PFAS.c_u st) (PFAS.c_heap st)
       = map (fun x => if (x <? 0)%float then 0%float else x) (load 0 h)
    /\ PFAS.c_u st = length h
    /\ load 0 (PFAS.c_heap st) = load 0 h.
Proof.
  intros h.
  assert (exists st,
             @PFAS.enter_cycling Dense.scipy Dense.pfas h 0 (U0Str "random")
               1e-8%float = Ok st) as [st E]
    by (eexists; vm_compute; reflexivity).
  destruct (@unknown_guess_start Dense.scipy Dense.pfas h 0 "random"%string
              1e-8%float st Dense.level0)
    as (Hlen & Hnil & _ & Hu & Hb).
  - intros Hin. repeat (apply elem_of_cons in Hin as [Hin|Hin];
                        [discriminate|]).
    now apply elem_of_nil in Hin.
  - reflexivity.
  - exact E.
  - exists st. split; [exact E|]. split; [exact Hlen|].
    split; [apply Hnil; reflexivity|]. split; [exact Hu|].
    apply Hb. simpl. lia.
Defined.

(** ** [linear_pfas_solver.solve]: what it leaves behind *)

Section Frame.
Context `{SciPy}.

Lemma level_ext (l l' : level) :
  transfer l = transfer l' -> A l = A l' -> l = l'.
Proof.
  destruct l, l'. unfold transfer. simpl. intros E ->.
  injection E as -> -> -> -> ->. reflexivity.
Qed.

Lemma levels_ext : forall ls ls' : list level,
  map transfer ls = map transfer ls' -> map A ls = map A ls' -> ls = ls'.
Proof.
  induction ls as [|l ls IH]; intros [|l' ls'] Ht Ha; simpl in *;
    try discriminate; [reflexivity|].
  apply (f_equal head) in Ht as Ht1; apply (f_equal tail) in Ht as Ht2.
  injection Ha as Ha Has. simpl in Ht1, Ht2.
  f_equal; [apply level_ext; congruence | now apply IH].
Qed.

Lemma transfer_insert (ls : list level) (i : nat) (lev lev' : level) :
  ls !! i = Some lev ->
  transfer lev' = transfer lev ->
  map transfer (<[i := lev']> ls) = map transfer ls.
Proof.
  intros Hi Ht. rewrite list_fmap_insert, Ht. apply list_insert_id.
  now rewrite list_lookup_fmap, Hi.
Qed.

Lemma constrain_transfer Al : forall idx ls asv ls' asv',
  for_each (PFAS.constrain_level Al) idx (ls, asv) = Ok (ls', asv') ->
  map transfer ls' = map transfer ls.
Proof.
  induction idx as [|i idx IH]; simpl; intros ls asv ls' asv' E.
  - now injection E as <- <-.
  - ok_step E. destruct x as [ls1 asv1].
    unfold PFAS.constrain_level in E0. do 2 ok_step E0.
    injection E0 as <- <-. apply getitem_Ok in E2.
    rewrite (IH _ _ _ _ E). now apply (transfer_insert _ _ x0).
Qed.

Lemma restore_transfer Al : forall idx ls ls',
  for_each (PFAS.restore_level Al) idx ls = Ok ls' ->
  map transfer ls' = map transfer ls.
Proof.
  induction idx as [|i idx IH]; simpl; intros ls ls' E.
  - now injection E as <-.
  - ok_step E. unfold PFAS.restore_level in E0. do 2 ok_step E0.
    injection E0 as <-. apply getitem_Ok in E2.
    rewrite (IH _ _ E). now apply (transfer_insert _ _ x1).
Qed.

(** One pass gives the hierarchy back as it found it. *)
Lemma frozen_pass_keeps_levels orig cycle tol k st brk st' :
  PFAS.frozen_pass cycle tol k st = Ok (brk, st') ->
  PFAS.levels (PFAS.f_self st) = orig ->
  (forall g, PFAS.f_gmg st = Some g -> PFAS.Alist g = map A orig) ->
  PFAS.levels (PFAS.f_self st') = orig
  /\ (forall g, PFAS.f_gmg st' = Some g -> PFAS.Alist g = map A orig).
Proof.
  intros E Hl HAl.
  assert (HA : map A (PFAS.levels (PFAS.f_self st)) = map A orig)
    by now rewrite Hl.
  destruct (frozen_pass_keeps_A _ _ _ _ _ _ _ E HA HAl) as [HA' HAl'].
  split; [|exact HAl'].
  apply frozen_pass_Ok in E. simpl in E.
  destruct E as (active & zeroed & asv0 & ls1 & asv1 & ls2 & unew & uclamp
                 & gres & _ & _ & Hcon & Hres & Hls & _).
  apply levels_ext; [|exact HA'].
  rewrite Hls, (restore_transfer _ _ _ _ Hres),
    (constrain_transfer _ _ _ _ _ _ Hcon).
  now rewrite Hl.
Qed.

Lemma frozen_loop_keeps_levels orig cycle tol k : forall n st st',
  PFAS.frozen_loop n cycle tol k st = Ok st' ->
  PFAS.levels (PFAS.f_self st) = orig ->
  (forall g, PFAS.f_gmg st = Some g -> PFAS.Alist g = map A orig) ->
  PFAS.levels (PFAS.f_self st') = orig.
Proof.
  induction n as [|n IH]; intros st st' E Hl HAl; simpl in E;
    do 2 ok_step E.
  - now injection E as <-.
  - destruct (tol <? x / x0)%float; [|now injection E as <-].
    ok_step E. destruct x1 as [brk st1].
    destruct (frozen_pass_keeps_levels _ _ _ _ _ _ _ E2 Hl HAl) as [Hl1 HAl1].
    destruct brk; [now injection E as <- | eauto].
Qed.

(** The names and the arrays of the projected cycling. *)
Lemma cycling_loop_names fuel b cycle tol k accel : forall n st st',
  PFAS.cycling_loop n fuel b cycle tol k accel st = Ok st' ->
  PFAS.c_u st' = PFAS.c_u st
  /\ length (PFAS.c_heap st') = length (PFAS.c_heap st)
  /\ PFAS.levels (PFAS.c_self st') = PFAS.levels (PFAS.c_self st)
  /\ (forall l, l <> PFAS.c_u st ->
        load l (PFAS.c_heap st') = load l (PFAS.c_heap st))
  /\ PFAS.c_z st <= PFAS.c_z st' <= PFAS.c_z st + n
  /\ length (PFAS.c_residuals st')
     = length (PFAS.c_residuals st) + (PFAS.c_z st' - PFAS.c_z st)
  /\ length (PFAS.c_log st')
     = length (PFAS.c_log st) + (PFAS.c_z st' - PFAS.c_z st).
Proof.
  induction n as [|n IH]; intros st st' E; simpl in E; ok_step E.
  - injection E as <-. repeat split; auto; lia.
  - destruct (tol <? x / PFAS.c_normb st)%float;
      [|injection E as <-; repeat split; auto; lia].
    ok_step E. destruct x0 as [brk st1].
    assert (Hstep : PFAS.c_u st1 = PFAS.c_u st
                    /\ length (PFAS.c_heap st1) = length (PFAS.c_heap st)
                    /\ PFAS.levels (PFAS.c_self st1)
                       = PFAS.levels (PFAS.c_self st)
                    /\ (forall l, l <> PFAS.c_u st ->
                          load l (PFAS.c_heap st1) = load l (PFAS.c_heap st))
                    /\ PFAS.c_z st1 = PFAS.c_z st + 1
                    /\ length (PFAS.c_residuals st1)
                       = length (PFAS.c_residuals st) + 1
                    /\ length (PFAS.c_log st1) = length (PFAS.c_log st) + 1).
    { clear E IH. unfold PFAS.cycling_step in E1.
      ok_step E1. destruct x0 as [u' v]. do 6 ok_step E1.
      injection E1 as <- <-. simpl.
      rewrite length_store, !length_app. simpl.
      repeat split; auto.
      intros l Hl. now apply load_store_ne. }
    destruct Hstep as (Hu & Hlen & Hlev & Hload & Hz & Hr & Hlog).
    destruct brk.
    + injection E as <-. repeat split; auto; lia.
    + destruct (IH _ _ E) as (Hu' & Hlen' & Hlev' & Hload' & Hz' & Hr' & Hlog').
      repeat split; try congruence; try lia.
      intros l Hl. rewrite Hload' by congruence. now apply Hload.
Qed.

(** The names and the arrays of the frozen linear correction: either no
    pass was made, or the counter has advanced and the arrays that the
    names [u] and [b] are bound to are new ones. *)
Lemma frozen_loop_names n0 caller cycle tol k : forall n st st',
  PFAS.frozen_loop n cycle tol k st = Ok st' ->
  n0 <= length (PFAS.f_heap st) ->
  PFAS.f_b st = caller \/ n0 <= PFAS.f_b st ->
  n0 <= PFAS.f_u st < length (PFAS.f_heap st) ->
  (st' = st
   \/ (PFAS.gmg_called st' = true /\ PFAS.f_z st < PFAS.f_z st'
       /\ n0 <= PFAS.f_b st'))
  /\ n0 <= length (PFAS.f_heap st')
  /\ n0 <= PFAS.f_u st' < length (PFAS.f_heap st')
  /\ (forall l, l < n0 -> l <> caller ->
        load l (PFAS.f_heap st') = load l (PFAS.f_heap st))
  /\ PFAS.f_z st <= PFAS.f_z st' <= PFAS.f_z st + n
  /\ length (PFAS.f_residuals st')
     = length (PFAS.f_residuals st) + (PFAS.f_z st' - PFAS.f_z st).
Proof.
  induction n as [|n IH]; intros st st' E Hn Hb Hu; simpl in E;
    do 2 ok_step E.
  - injection E as <-. repeat split; auto; lia.
  - destruct (tol <? x / x0)%float;
      [|injection E as <-; repeat split; auto; lia].
    ok_step E. destruct x1 as [brk st1].
    assert (Hpass : PFAS.gmg_called st1 = true
                    /\ PFAS.f_z st1 = PFAS.f_z st + 1
                    /\ n0 <= PFAS.f_b st1
                    /\ n0 <= length (PFAS.f_heap st1)
                    /\ n0 <= PFAS.f_u st1 < length (PFAS.f_heap st1)
                    /\ (forall l, l < n0 -> l <> caller ->
                          load l (PFAS.f_heap st1) = load l (PFAS.f_heap st))
                    /\ length (PFAS.f_residuals st1)
                       = length (PFAS.f_residuals st) + 1).
    { clear E IH.
      assert (Hres : length (PFAS.f_residuals st1)
                     = length (PFAS.f_residuals st) + 1).
      { unfold PFAS.frozen_pass in E2.
        destruct (PFAS.f_gmg st); unfold alloc in E2;
          do 5 ok_step E2; destruct x5 as [ls1 asv];
          do 6 ok_step E2; injection E2 as _ <-; simpl;
          rewrite length_app; reflexivity. }
      apply frozen_pass_Ok in E2. simpl in E2.
      destruct E2 as (active & zeroed & asv0 & ls1 & asv1 & ls2 & unew
                      & uclamp & gres & _ & _ & _ & _ & _ & Hg & Hh & Hu'
                      & Hb' & _ & Hz).
      set (h0 := PFAS.f_heap st) in *.
      set (h1 := match PFAS.f_gmg st with
                 | Some _ => h0
                 | None => h0 ++ [load (PFAS.f_b st) h0]
                 end) in *.
      assert (Hh1 : length h0 <= length h1).
      { unfold h1. destruct (PFAS.f_gmg st); [lia|].
        rewrite length_app. simpl. lia. }
      assert (Hold : forall l, l < length h0 -> load l h1 = load l h0).
      { intros l Hl. unfold h1. destruct (PFAS.f_gmg st); [reflexivity|].
        now apply load_app_old. }
      unfold PFAS.gmg_called. rewrite Hg, Hh, Hu', Hb', Hz.
      rewrite length_heap_after_pass.
      repeat split; try lia; try exact Hres.
      intros l Hl Hne. rewrite load_heap_after_pass by lia.
      rewrite decide_False by lia. apply Hold. lia. }
    destruct Hpass as (Hc1 & Hz1 & Hb1 & Hn1 & Hu1 & Hload1 & Hr1).
    destruct brk.
    + injection E as <-. repeat split; auto; try lia. right. split; [auto|lia].
    + destruct (IH _ _ E Hn1 (or_intror Hb1) Hu1)
        as (Hcase & Hn' & Hu2 & Hload' & Hz' & Hr').
      split.
      { right. destruct Hcase as [->|(Hc & Hz2 & Hb2)].
        - split; [auto|lia].
        - split; [auto|lia]. }
      repeat split; try lia.
      intros l Hl Hne. rewrite Hload' by assumption. now apply Hload1.
Qed.

Lemma finish_names st res :
  PFAS.finish st = Ok res ->
  PFAS.r_u res = PFAS.f_u st /\ PFAS.r_log res = PFAS.f_log st.
Proof.
  unfold PFAS.finish. intros E. do 2 ok_step E.
  injection E as <-. simpl. auto.
Qed.

(** The arrays of the caller, as an intermediate solver of the branch
    [cycle == 'fmg'] leaves them. *)
Lemma solve_iterative_keeps fuel self h b u0 cycle tol maxiters k accel res :
  b < length h ->
  PFAS.solve_iterative fuel self h b u0 cycle tol maxiters k accel = Ok res ->
  length h <= length (PFAS.r_heap res)
  /\ (forall l, l < length h -> l <> b ->
        load l (PFAS.r_heap res) = load l h).
Proof.
  intros Hb E. apply solve_iterative_Ok in E.
  destruct E as (st0 & st & st' & E0 & E1 & E2 & E3).
  apply enter_cycling_Ok in E0.
  destruct E0 as (g & uv & _ & _ & Hu & Hh & _).
  apply cycling_loop_names in E1 as (Hu1 & Hlen1 & _ & Hload1 & _).
  rewrite Hu in Hu1, Hload1. rewrite Hh in Hlen1, Hload1.
  rewrite length_app in Hlen1. simpl in Hlen1.
  apply finish_Ok in E3 as (Hrh & _).
  apply (frozen_loop_names (length h) b) in E2
    as (_ & Hn & _ & Hload2 & _); simpl; try lia.
  rewrite Hrh. split; [exact Hn|].
  intros l Hl Hne. rewrite Hload2 by assumption. simpl.
  rewrite Hload1 by lia. now apply load_app_old.
Qed.

(** X12.  What [solve] may write.  When it returns, every array that
    existed before the call, the right-hand side [b] apart, is unchanged;
    the returned array is a new one; and if the frozen linear correction
    has made no pass, the array [b] is unchanged too and the name [b] is
    still bound to it. *)
Theorem solve_frame fuel self h b u0 cycle tol maxiters k accel res :
  b < length h ->
  PFAS.solve_iterative fuel self h b u0 cycle tol maxiters k accel = Ok res ->
  (forall l, l < length h -> l <> b ->
     load l (PFAS.r_heap res) = load l h)
  /\ length h <= PFAS.r_u res < length (PFAS.r_heap res)
  /\ (PFAS.r_gmg_called res = false ->
      PFAS.r_b res = b /\ load b (PFAS.r_heap res) = load b h).
Proof.
  intros Hb E. apply solve_iterative_Ok in E.
  destruct E as (st0 & st & st' & E0 & E1 & E2 & E3).
  apply enter_cycling_Ok in E0.
  destruct E0 as (g & uv & _ & _ & Hu & Hh & _).
  apply cycling_loop_names in E1 as (Hu1 & Hlen1 & _ & Hload1 & _).
  rewrite Hu in Hu1, Hload1. rewrite Hh in Hlen1, Hload1.
  rewrite length_app in Hlen1. simpl in Hlen1.
  destruct (finish_names _ _ E3) as [Hru _].
  apply finish_Ok in E3 as (Hrh & Hrb & Hrg & _).
  apply (frozen_loop_names (length h) b) in E2
    as (Hcase & _ & Hu2 & Hload2 & _); simpl; try lia.
  rewrite Hrh, Hrb, Hrg, Hru.
  split; [|split].
  - intros l Hl Hne. rewrite Hload2 by assumption. simpl.
    rewrite Hload1 by lia. now apply load_app_old.
  - exact Hu2.
  - intros Hcalled. destruct Hcase as [->|(Hc & _)]; [|congruence].
    simpl. split; [reflexivity|].
    rewrite Hload1 by lia. now apply load_app_old.
Qed.

(** X13.  When [solve] returns, [self.levels] is what it was on entry: not
    only the operators [A], every field of every level. *)
Theorem solve_keeps_levels fuel self h b u0 cycle tol maxiters k accel res :
  PFAS.solve_iterative fuel self h b u0 cycle tol maxiters k accel = Ok res ->
  PFAS.levels (PFAS.r_self res) = PFAS.levels self.
Proof.
  intros E. apply solve_iterative_Ok in E.
  destruct E as (st0 & st & st' & E0 & E1 & E2 & E3).
  apply enter_cycling_Ok in E0.
  destruct E0 as (g & uv & _ & _ & _ & _ & Hself & _).
  apply cycling_loop_names in E1 as (_ & _ & Hlev & _).
  apply finish_Ok in E3 as (_ & _ & _ & ->).
  rewrite (frozen_loop_keeps_levels (PFAS.levels self) _ _ _ _ _ _ E2).
  - reflexivity.
  - simpl. now rewrite Hlev, Hself.
  - simpl. discriminate.
Qed.

(** X14.  The two loops of [solve] share the counter [z]: a call that
    returns has made between one and [maxiters] iterations in all (the
    cycles of the projected phase, one logged visit each, then the passes
    of the frozen phase), and has recorded one merit residual for each of
    them besides the initial one. *)
Theorem iteration_budget fuel self h b u0 cycle tol maxiters k accel res :
  PFAS.solve_iterative fuel self h b u0 cycle tol maxiters k accel = Ok res ->
  exists st st',
    (st0 ← PFAS.enter_cycling self h b u0 tol;
     PFAS.cycling_loop maxiters fuel b cycle tol k accel st0) = Ok st
    /\ PFAS.frozen_loop (maxiters - PFAS.c_z st) cycle tol k
         (PFAS.enter_frozen b st) = Ok st'
    /\ length (PFAS.c_log st) = PFAS.c_z st
    /\ PFAS.c_z st <= PFAS.f_z st'
    /\ 1 <= PFAS.f_z st' <= maxiters
    /\ length (PFAS.f_residuals st') = PFAS.f_z st' + 1.
Proof.
  intros E. apply solve_iterative_Ok in E.
  destruct E as (st0 & st & st' & E0 & E1 & E2 & E3).
  exists st, st'. rewrite E0. simpl. split; [exact E1|]. split; [exact E2|].
  destruct (enter_cycling_residuals _ _ _ _ _ _ E0)
    as ((r0 & Hr0) & _ & Hlog0).
  apply enter_cycling_Ok in E0.
  destruct E0 as (g & uv & _ & _ & Hu & Hh & _ & Hz0 & _).
  apply cycling_loop_names in E1
    as (Hu1 & Hlen1 & _ & _ & Hz1 & Hr1 & Hlog1).
  rewrite Hr0, Hlog0, Hz0 in *. simpl in Hr1, Hlog1.
  rewrite Hu in Hu1. rewrite Hh, length_app in Hlen1. simpl in Hlen1.
  pose proof E2 as E2'.
  apply (frozen_loop_names 0 b) in E2
    as (Hcase & _ & _ & _ & Hz2 & Hr2); simpl; try lia.
  simpl in Hz2, Hr2.
  assert (Hlen : length (PFAS.f_residuals st') = PFAS.f_z st' + 1) by lia.
  repeat split; try lia.
  destruct Hcase as [->|(_ & Hlt & _)]; [|simpl in Hlt; lia].
  simpl in *. unfold PFAS.finish in E3. simpl in E3.
  ok_step E3. ok_step E3.
  destruct (PFAS.c_z st) as [|z]; [|lia].
  exfalso. destruct (PFAS.c_residuals st) as [|r [|]]; simpl in Hlen;
    try lia.
  simpl in E0. discriminate.
Qed.

End Frame.

Lemma solve_frame_witness :
  let h := [[9; 9]%float; [-1; 3; -5; 1]%float] in
  exists res,
    @PFAS.solve_iterative Dense.scipy 100 Dense.pfas h 1 U0None "V"
      1e-8%float 4 0 None = Ok res
    /\ load 0 (PFAS.r_heap res) = [9; 9]%float
    /\ length h <= PFAS.r_u res < length (PFAS.r_heap res).
Proof.
  intros h.
  assert (exists res,
             @PFAS.solve_iterative Dense.scipy 100 Dense.pfas h 1 U0None "V"
               1e-8%float 4 0 None = Ok res) as [res E]
    by (eexists; vm_compute; reflexivity).
  destruct (@solve_frame Dense.scipy 100 Dense.pfas h 1 U0None "V"%string
              1e-8%float 4 0 None res) as (Hframe & Hu & _).
  - simpl. lia.
  - exact E.
  - exists res. split; [exact E|]. split; [|exact Hu].
    apply (Hframe 0); simpl; lia.
Defined.

Lemma solve_keeps_levels_witness :
  exists res,
    @PFAS.solve_iterative Dense.scipy 100 Dense.pfas [[-1; 3; -5; 1]%float]
      0 U0None "V" 1e-8%float 4 0 None = Ok res
    /\ PFAS.r_gmg_called res = true
    /\ PFAS.levels (PFAS.r_self res) = PFAS.levels Dense.pfas.
Proof.
  assert (exists res,
             @PFAS.solve_iterative Dense.scipy 100 Dense.pfas
               [[-1; 3; -5; 1]%float] 0 U0None "V" 1e-8%float 4 0 None
             = Ok res /\ PFAS.r_gmg_called res = true) as (res & E & Hc)
    by (eexists; split; vm_compute; reflexivity).
  exists res. split; [exact E|]. split; [exact Hc|].
  exact (@solve_keeps_levels Dense.scipy 100 Dense.pfas
           [[-1; 3; -5; 1]%float] 0 U0None "V"%string 1e-8%float 4 0 None
           res E).
Defined.

Lemma iteration_budget_witness :
  exists res st st',
    @PFAS.solve_iterative Dense.scipy 100 Dense.pfas [[-1; 3; -5; 1]%float]
      0 U0None "V" 1e-8%float 4 0 None = Ok res
    /\ (st0 ← @PFAS.enter_cycling Dense.scipy Dense.pfas
                [[-1; 3; -5; 1]%float] 0 U0None 1e-8%float;
        PFAS.cycling_loop 4 100 0 "V" 1e-8%float 0 None st0) = Ok st
    /\ PFAS.frozen_loop (4 - PFAS.c_z st) "V" 1e-8%float 0
         (PFAS.enter_frozen 0 st) = Ok st'
    /\ length (PFAS.c_log st) = PFAS.c_z st
    /\ PFAS.c_z st <= PFAS.f_z st'
    /\ 1 <= PFAS.f_z st' <= 4
    /\ length (PFAS.f_residuals st') = PFAS.f_z st' + 1.
Proof.
  assert (exists res,
             @PFAS.solve_iterative Dense.scipy 100 Dense.pfas
               [[-1; 3; -5; 1]%float] 0 U0None "V" 1e-8%float 4 0 None
             = Ok res) as (res & E)
    by (eexists; vm_compute; reflexivity).
  destruct (@iteration_budget Dense.scipy 100 Dense.pfas
              [[-1; 3; -5; 1]%float] 0 U0None "V"%string 1e-8%float 4 0 None
              res E) as (st & st' & Hrest).
  exists res, st, st'. split; [exact E|exact Hrest].
Defined.

(** ** [linear_pfas_solver]: the coarsest grid and the exit under ['rsp'] *)

Section Coarsest.
Context `{SciPy}.

Lemma coarse_relax_Ok self coarse_A coarse_b coarse_u' :
  forall fuel du coarse_u,
    PFAS.coarse_relax fuel self coarse_A du coarse_u coarse_b
    = Ok coarse_u' ->
    exists n,
      n <= fuel
      /\ coarse_u' = sweeps (PFAS.smoother self) n coarse_A coarse_b None
                       coarse_u
      /\ match n with
         | 0 => (1e-12 <? du)%float = false
         | S m =>
           (1e-12 <? du)%float = true
           /\ (1e-12 <? np.of_nat (PFAS.coarse_mx self + 1)
                        * norm (np.sub
                                  (sweeps (PFAS.smoother self) m coarse_A
                                     coarse_b None coarse_u)
                                  coarse_u'))%float = false
         end.
Proof.
  induction fuel as [|fuel IH]; intros du cu E; simpl in E.
  - destruct (1e-12 <? du)%float eqn:Hdu; [discriminate|].
    injection E as <-. exists 0. auto.
  - destruct (1e-12 <? du)%float eqn:Hdu.
    + apply IH in E as (n & Hn & Hu & Hexit).
      exists (S n). split; [lia|].
      unfold sweeps in *. rewrite Nat.iter_succ_r. split; [exact Hu|].
      split; [reflexivity|].
      destruct n as [|m].
      * simpl in Hu. subst coarse_u'. exact Hexit.
      * destruct Hexit as [_ Hexit]. rewrite Nat.iter_succ_r. exact Hexit.
    + injection E as <-. exists 0. split; [lia|]. auto.
Qed.

(** X15.  The relaxation on the coarsest grid (lines 306-310) starts from
    [du = 1.0]: when it returns it has made at least one sweep, also on an
    iterate that was a fixed point already; its result is the iterate after
    [m + 1] sweeps, and the scaled norm of the last increment is not above
    [1e-12]. *)
Theorem coarse_relax_exit fuel self coarse_A coarse_u coarse_b coarse_u' :
  PFAS.coarse_relax fuel self coarse_A 1%float coarse_u coarse_b
  = Ok coarse_u' ->
  exists m,
    S m <= fuel
    /\ coarse_u' = sweeps (PFAS.smoother self) (S m) coarse_A coarse_b None
                     coarse_u
    /\ (1e-12 <? np.of_nat (PFAS.coarse_mx self + 1)
                 * norm (np.sub
                           (sweeps (PFAS.smoother self) m coarse_A coarse_b
                              None coarse_u)
                           coarse_u'))%float = false.
Proof.
  intros E. apply coarse_relax_Ok in E as (n & Hn & Hu & Hexit).
  destruct n as [|m]; [discriminate|].
  exists m. destruct Hexit as [_ Hexit]. auto.
Qed.

(** X16.  Under [accel = 'rsp'] an iteration whose new active set is empty
    ends with [break]: the guard of line 451 sets [active_set_change] to
    [0.], which is below [.01], and [z] is not [0] inside the loop. *)
Theorem rsp_empty_active_set_breaks fuel b cycle k st brk st' :
  PFAS.cycling_step fuel b cycle k (Some "rsp"%string) st = Ok (brk, st') ->
  PFAS.c_new st' = ∅ ->
  brk = true.
Proof.
  intros E Hnew. unfold PFAS.cycling_step in E.
  ok_step E. destruct x as [u' v]. do 6 ok_step E.
  injection E as <- <-. simpl in Hnew. rewrite Hnew.
  unfold PFAS.exit_test.
  rewrite (bool_decide_eq_true_2 (Some "rsp"%string = Some "rsp"%string))
    by reflexivity.
  rewrite size_empty.
  rewrite (bool_decide_eq_false_2 (0 <> 0)) by lia.
  rewrite (bool_decide_eq_true_2 (PFAS.c_z st + 1 <> 0)) by lia.
  reflexivity.
Qed.

End Coarsest.

Lemma coarse_relax_exit_witness :
  exists coarse_u' m,
    @PFAS.coarse_relax Dense.scipy 100 Dense.pfas Dense.A2 1%float [0]%float
      [1]%float = Ok coarse_u'
    /\ S m <= 100
    /\ coarse_u' = @sweeps Dense.scipy Dense.pgs (S m) Dense.A2 [1]%float None
                     [0]%float.
Proof.
  assert (exists r,
             @PFAS.coarse_relax Dense.scipy 100 Dense.pfas Dense.A2 1%float
               [0]%float [1]%float = Ok r) as [cu' E]
    by (eexists; vm_compute; reflexivity).
  destruct (@coarse_relax_exit Dense.scipy 100 Dense.pfas Dense.A2 [0]%float
              [1]%float cu' E) as (m & Hm & Hu & _).
  exists cu', m. auto.
Defined.

Lemma rsp_empty_active_set_breaks_witness :
  exists st brk st',
    @PFAS.enter_cycling Dense.scipy Dense.pfas [[1; 1; 1; 1]%float] 0
      U0None 1e-8%float = Ok st
    /\ @PFAS.cycling_step Dense.scipy 100 0 "V" 1 (Some "rsp"%string) st
       = Ok (brk, st')
    /\ PFAS.c_new st' = ∅
    /\ brk = true.
Proof.
  assert (exists st,
             @PFAS.enter_cycling Dense.scipy Dense.pfas [[1; 1; 1; 1]%float]
               0 U0None 1e-8%float = Ok st) as [st E0]
    by (eexists; vm_compute; reflexivity).
  assert (exists r,
             @PFAS.cycling_step Dense.scipy 100 0 "V" 1 (Some "rsp"%string)
               st = Ok r) as [[brk st'] E1].
  { injection E0 as <-. eexists. vm_compute. reflexivity. }
  assert (Hnew : PFAS.c_new st' = ∅).
  { injection E0 as <-. vm_compute in E1. injection E1 as _ <-.
    apply set_eq. intros i. vm_compute. tauto. }
  exists st, brk, st'. split; [exact E0|]. split; [exact E1|].
  split; [exact Hnew|].
  exact (@rsp_empty_active_set_breaks Dense.scipy 100 0 "V"%string 1 st brk
           st' E1 Hnew).
Defined.

(** ** [multigrid_solver.solve]: the branch [cycle == 'fmg'] *)

Section FullMultigrid.
Context `{SciPy}.

Lemma restrict_steps_return (ls : list level) : forall n s blist,
  blist <> [] ->
  s + n <= length ls ->
  exists blist',
    for_each (restrict_step ls) (seq s n) blist = Ok blist'
    /\ length blist' = length blist + n.
Proof.
  induction n as [|n IH]; intros s blist Hne Hs; cbn [for_each seq].
  - exists blist. split; [reflexivity|lia].
  - destruct (getitem_lt ls s) as (lev & Hlev & _); [lia|].
    destruct blist as [|b0 bl] using rev_ind; [congruence|]. clear IHbl.
    assert (Hstep : restrict_step ls s (bl ++ [b0])
                    = Ok ((bl ++ [b0]) ++ [dot (R lev) b0])).
    { unfold restrict_step. rewrite Hlev. simpl.
      now rewrite getitem_last_snoc. }
    destruct (IH (S s) ((bl ++ [b0]) ++ [dot (R lev) b0]))
      as (blist' & E & Hlen).
    + now destruct (bl ++ [b0]).
    + lia.
    + exists blist'. split; [rewrite Hstep; exact E|].
      rewrite Hlen, !length_app. simpl. lia.
Qed.

Lemma mg_init_Ok ls cmx cmy sm cs diag s :
  MG.init ls cmx cmy sm cs diag = Ok s ->
  MG.levels s = ls /\ MG.self_level s = 0 /\ MG.residuals s = [].
Proof.
  unfold MG.init. intros E. ok_step E. injection E as <-. auto.
Qed.

Lemma mg_init_returns ls cmx cmy sm cs diag :
  ls <> [] -> exists s, MG.init ls cmx cmy sm cs diag = Ok s.
Proof.
  intros Hne. destruct ls as [|l ls]; [congruence|].
  eexists. reflexivity.
Qed.

(** The runs of the intermediate solvers: each made at most one cycle. *)
Lemma fmg_steps_return self blist k : forall m s u runs,
  length blist = length (MG.levels self) ->
  1 <= s ->
  s + m <= length (MG.levels self) ->
  Forall (fun r => MG.run_z r <= 1
                   /\ length (MG.run_cycles r) = MG.run_z r) runs ->
  exists u' runs',
    for_each (FMG.fmg_step self blist k) (seq s m) (u, runs) = Ok (u', runs')
    /\ length runs' = length runs + m
    /\ Forall (fun r => MG.run_z r <= 1
                        /\ length (MG.run_cycles r) = MG.run_z r) runs'.
Proof.
  induction m as [|m IH]; intros s u runs Hbl Hs Hm Hall; cbn [for_each seq].
  - exists u, runs. split; [reflexivity|]. split; [lia|assumption].
  - set (L := length (MG.levels self)) in *.
    assert (Hstep : exists r,
               FMG.fmg_step self blist k s (u, runs)
               = Ok (MG.run_u r, runs ++ [r])
               /\ MG.run_z r <= 1
               /\ length (MG.run_cycles r) = MG.run_z r).
    { unfold FMG.fmg_step. fold L.
      assert (Hdrop : length (drop (L - 1 - s) (MG.levels self)) = S s)
        by (rewrite length_drop; fold L; lia).
      destruct (mg_init_returns (drop (L - 1 - s) (MG.levels self))
                  (MG.coarse_mx self) (MG.coarse_my self) (MG.smoother self)
                  (MG.coarse_solver self) (MG.diagnostics self))
        as (g & Hg).
      { intros E. rewrite E in Hdrop. discriminate. }
      rewrite Hg. simpl.
      apply mg_init_Ok in Hg as (Hgl & Hgs & _).
      destruct (getitem_lt (MG.levels self) (L - s)) as (lev & -> & _);
        [fold L; lia|].
      simpl.
      destruct (getitem_lt blist (L - 1 - s)) as (bn & -> & _); [lia|].
      simpl.
      destruct (mg_solve_iterative_bound g bn (Some (dot (P lev) u)) "V"%string
                  1e-12%float 1 k)
        as (r & -> & Hz & Hc); [rewrite Hgl; lia..|].
      simpl. eauto. }
    destruct Hstep as (r & Hstep & Hz & Hc).
    destruct (IH (S s) (MG.run_u r) (runs ++ [r])) as (u' & runs' & E & Hlen
                                                       & Hall');
      [assumption|lia|fold L; lia| |].
    + apply Forall_app. split; [assumption|].
      apply Forall_singleton. split; lia.
    + exists u', runs'. split; [rewrite Hstep; exact E|].
      split; [|assumption].
      rewrite Hlen, length_app. simpl. lia.
Qed.

(** X17.  The branch [cycle == 'fmg'] of [multigrid_solver.solve] (lines
    134-151): on every non-empty hierarchy none of its list accesses can
    fail.  It runs one intermediate solver for each level above the
    coarsest, each of which makes at most one V-cycle; it appends exactly
    one residual to [self.residuals], that of the returned array on the
    finest level; and it leaves [self.levels] as it was. *)
Theorem fmg_returns self b k :
  MG.levels self <> [] ->
  exists r lev0,
    FMG.solve_fmg self b k = Ok r
    /\ MG.levels self !! 0 = Some lev0
    /\ MG.residuals (FMG.fmg_self r)
       = MG.residuals self
         ++ [norm_inf (np.sub b (dot (A lev0) (FMG.fmg_u r)))]
    /\ MG.levels (FMG.fmg_self r) = MG.levels self
    /\ length (FMG.fmg_runs r) = length (MG.levels self) - 1
    /\ Forall (fun run => MG.run_z run <= 1
                          /\ length (MG.run_cycles run) = MG.run_z run)
         (FMG.fmg_runs r).
Proof.
  intros Hne. unfold FMG.solve_fmg.
  set (L := length (MG.levels self)).
  assert (HL : 1 <= L)
    by (unfold L; destruct (MG.levels self); [congruence|simpl; lia]).
  destruct (restrict_steps_return (MG.levels self) (L - 1) 0 [b])
    as (blist & -> & Hbl); [discriminate|fold L; lia|].
  simpl in Hbl. simpl.
  destruct (getitem_last_lookup (MG.levels self) (L - 1))
    as (coarsest & -> & _); [fold L; lia|].
  simpl.
  destruct (getitem_last_lookup blist (L - 1)) as (b_last & -> & _); [lia|].
  simpl.
  destruct (fmg_steps_return self blist k (L - 1) 1
              (MG.coarse_solver self (A coarsest) b_last) [])
    as (u & runs & -> & Hlen & Hall);
    [fold L; lia|lia|fold L; lia|constructor|].
  simpl.
  destruct (getitem_lt (MG.levels self) 0) as (lev0 & -> & Hlev0);
    [fold L; lia|].
  simpl. eexists _, lev0. split; [reflexivity|]. simpl.
  repeat split; auto.
Qed.

(** X18.  On a hierarchy of a single level, where every cycle of the other
    branch fails on [self.levels[lvl + 1]], the branch [cycle == 'fmg']
    returns the result of the coarse solver for [A] and [b]. *)
Theorem fmg_single_level self b k lev :
  MG.levels self = [lev] ->
  let u := MG.coarse_solver self (A lev) b in
  FMG.solve_fmg self b k
  = Ok (FMG.FmgRun
          (MG.append_residual (norm_inf (np.sub b (dot (A lev) u))) self)
          u []).
Proof.
  intros Hl u. unfold FMG.solve_fmg. rewrite Hl. reflexivity.
Qed.

End FullMultigrid.

Lemma fmg_returns_witness :
  exists r lev0,
    @FMG.solve_fmg Dense.scipy Dense.mg [1; 1; 1; 1]%float 1 = Ok r
    /\ MG.levels Dense.mg !! 0 = Some lev0
    /\ MG.residuals (FMG.fmg_self r)
       = MG.residuals Dense.mg
         ++ [@norm_inf Dense.scipy
               (np.sub [1; 1; 1; 1]%float
                  (@dot Dense.scipy (A lev0) (FMG.fmg_u r)))]
    /\ MG.levels (FMG.fmg_self r) = MG.levels Dense.mg
    /\ length (FMG.fmg_runs r) = length (MG.levels Dense.mg) - 1
    /\ Forall (fun run => MG.run_z run <= 1
                          /\ length (MG.run_cycles run) = MG.run_z run)
         (FMG.fmg_runs r).
Proof.
  apply (@fmg_returns Dense.scipy Dense.mg [1; 1; 1; 1]%float 1).
  discriminate.
Defined.

Lemma fmg_single_level_witness :
  let self := @MG.Build Dense.scipy [Dense.level2] Dense.spsolve 1 1 0
                Dense.gs [] [] in
  let u := Dense.spsolve Dense.A2 [1]%float in
  @FMG.solve_fmg Dense.scipy self [1]%float 1
  = Ok (FMG.FmgRun
          (MG.append_residual
             (@norm_inf Dense.scipy
                (np.sub [1]%float (@dot Dense.scipy Dense.A2 u))) self)
          u []).
Proof.
  apply (@fmg_single_level Dense.scipy
           (@MG.Build Dense.scipy [Dense.level2] Dense.spsolve 1 1 0 Dense.gs
              [] [])
           [1]%float 1 Dense.level2).
  reflexivity.
Defined.

(** ** [linear_pfas_solver.solve]: the branch [cycle == 'fmg'] *)

Section ProjectedFullMultigrid.
Context `{SciPy}.

Lemma restrict_alloc_Ok (ls : list level) : forall n s h blist h' blist',
  for_each (PFAS.restrict_alloc ls) (seq s n) (h, blist) = Ok (h', blist') ->
  (exists new, h' = h ++ new /\ length new = n)
  /\ blist' = blist ++ seq (length h) n.
Proof.
  induction n as [|n IH]; intros s h blist h' blist' E;
    cbn [for_each seq] in E.
  - injection E as <- <-. split; [exists []|]; now rewrite app_nil_r.
  - ok_step E. destruct x as [h1 bl1].
    unfold PFAS.restrict_alloc, alloc in E0. do 2 ok_step E0.
    injection E0 as <- <-.
    apply IH in E as ((new & -> & Hn) & ->).
    split.
    + eexists (_ :: new). rewrite <- app_assoc. split; [reflexivity|].
      simpl. lia.
    + rewrite <- app_assoc, length_app. simpl.
      now rewrite Nat.add_1_r.
Qed.

(** The solves of the intermediate solvers leave alone every array that
    existed before the call, the right-hand side of the caller apart. *)
Lemma fmg_steps_frame fuel self blist k n0 caller : forall m s h u subs h' u'
    subs',
  for_each (PFAS.fmg_step fuel self blist k) (seq s m) (h, u, subs)
  = Ok (h', u', subs') ->
  n0 <= length h ->
  Forall (fun l => (l = caller \/ n0 <= l) /\ l < length h) blist ->
  length subs' = length subs + m
  /\ length h <= length h'
  /\ (forall l, l < n0 -> l <> caller -> load l h' = load l h).
Proof.
  induction m as [|m IH]; intros s h u subs h' u' subs' E Hn Hbl;
    cbn [for_each seq] in E.
  - injection E as <- <- <-. repeat split; auto; lia.
  - ok_step E. destruct x as [[h1 u1] subs1].
    assert (Hstep : length subs1 = length subs + 1
                    /\ length h <= length h1
                    /\ (forall l, l < n0 -> l <> caller ->
                          load l h1 = load l h)).
    { clear E IH. unfold PFAS.fmg_step in E0.
      apply bind_Ok in E0 as (g & _ & E0).
      apply bind_Ok in E0 as (lev & _ & E0).
      apply bind_Ok in E0 as (levb & _ & E0).
      apply bind_Ok in E0 as (bn & Hbn & E0).
      apply bind_Ok in E0 as (ub & _ & E0).
      apply bind_Ok in E0 as (res & Hres & E0).
      injection E0 as <- <- <-.
      apply getitem_Ok in Hbn. apply list_elem_of_lookup_2 in Hbn.
      rewrite Forall_forall in Hbl. destruct (Hbl _ Hbn) as [Hb Hlt].
      destruct (solve_iterative_keeps _ _ _ _ _ _ _ _ _ _ _ Hlt Hres)
        as (Hu & Hframe).
      rewrite length_app. simpl.
      repeat split; try lia.
      intros l Hl Hne. apply Hframe; lia. }
    destruct Hstep as (Hs1 & Hh1 & Hload1).
    apply IH in E as (Hs' & Hh' & Hload'); [|lia|].
    + repeat split; try lia.
      intros l Hl Hne. rewrite Hload' by assumption. now apply Hload1.
    + eapply Forall_impl; [exact Hbl|]. simpl.
      intros l [? ?]. split; [auto|lia].
Qed.

(** X19.  The branch [cycle == 'fmg'] of [linear_pfas_solver.solve] (lines
    563-586): when it returns it has run [len(levels) - 2] intermediate
    solvers (none for the second-to-last level, through which the iterate
    only passes by prolongation), and every array that existed before the
    call, the right-hand side [b] apart, is unchanged. *)
Theorem pfas_fmg_frame fuel self h b k h' u subs :
  b < length h ->
  PFAS.solve_fmg fuel self h b k = Ok (h', u, subs) ->
  length subs = length (PFAS.levels self) - 2
  /\ length h <= length h'
  /\ (forall l, l < length h -> l <> b -> load l h' = load l h).
Proof.
  intros Hb E. unfold PFAS.solve_fmg in E.
  ok_step E. destruct x as [h1 blist].
  apply restrict_alloc_Ok in E0 as ((new & -> & Hnew) & ->).
  do 4 ok_step E.
  apply (fmg_steps_frame _ _ _ _ (length h) b) in E
    as (Hs & Hh & Hload).
  - rewrite length_app in Hh. simpl in Hs.
    repeat split; try lia.
    intros l Hl Hne. rewrite Hload by assumption. now apply lookup_total_app_l.
  - rewrite length_app. lia.
  - rewrite length_app. apply Forall_cons. split; [split; [auto|lia]|].
    apply Forall_forall. intros l Hl. apply elem_of_seq in Hl. lia.
Qed.

(** X20.  With exactly two levels that branch makes no cycle at all: it
    allocates the restricted right-hand side, relaxes on the coarsest grid
    (at least one sweep, from the zero vector with the boundary values of
    that right-hand side) and returns the prolongation of the result.
    [self.diagnostics] is not consulted. *)
Theorem pfas_fmg_two_levels fuel self h b k fine coarse h' u subs :
  PFAS.levels self = [fine; coarse] ->
  PFAS.solve_fmg fuel self h b k = Ok (h', u, subs) ->
  let coarse_b := dot (R fine) (load b h) in
  subs = []
  /\ h' = h ++ [coarse_b]
  /\ exists u0 m,
       index_copy (np.zeros_like coarse_b) (bndry_pts coarse) coarse_b
       = Ok u0
       /\ u = dot (P coarse)
                (sweeps (PFAS.smoother self) (S m) (A coarse) coarse_b None
                   u0).
Proof.
  intros Hl E cb. unfold PFAS.solve_fmg in E. rewrite Hl in E.
  cbn [length Nat.sub seq for_each] in E.
  unfold PFAS.restrict_alloc at 1 in E. simpl in E.
  rewrite load_app_new in E. fold cb in E.
  apply bind_Ok in E as (u0 & Hu0 & E).
  apply bind_Ok in E as (cu & Hcu & E).
  injection E as <- <- <-.
  split; [reflexivity|]. split; [reflexivity|].
  apply coarse_relax_Ok in Hcu as (n & _ & -> & Hexit).
  destruct n as [|m]; [discriminate|]. eauto.
Qed.

End ProjectedFullMultigrid.

Lemma pfas_fmg_frame_witness :
  let h := [[1; 1; 1; 1]%float; [9; 9]%float] in
  exists h' u subs,
    @PFAS.solve_fmg Dense.scipy 100 Dense.pfas h 0 1 = Ok (h', u, subs)
    /\ length subs = length (PFAS.levels Dense.pfas) - 2
    /\ length h <= length h'
    /\ load 1 h' = [9; 9]%float.
Proof.
  intros h.
  assert (exists r,
             @PFAS.solve_fmg Dense.scipy 100 Dense.pfas h 0 1 = Ok r)
    as ([[h' u] subs] & E)
    by (eexists; vm_compute; reflexivity).
  destruct (@pfas_fmg_frame Dense.scipy 100 Dense.pfas h 0 1 h' u subs)
    as (Hs & Hh & Hframe).
  - simpl. lia.
  - exact E.
  - exists h', u, subs. split; [exact E|]. split; [exact Hs|].
    split; [exact Hh|]. apply (Hframe 1); simpl; lia.
Defined.

Lemma pfas_fmg_two_levels_witness :
  let self := @PFAS.Build Dense.scipy [Dense.level1; Dense.level2] Dense.pgs
                1 1 0 Dense.pgs 0.15%float None [] [] in
  exists h' u subs,
    PFAS.solve_fmg 100 self [[3; 1]%float] 0 1 = Ok (h', u, subs)
    /\ subs = []
    /\ h' = [[3; 1]%float; [3]%float].
Proof.
  intros self.
  assert (exists r, PFAS.solve_fmg 100 self [[3; 1]%float] 0 1 = Ok r)
    as ([[h' u] subs] & E)
    by (eexists; vm_compute; reflexivity).
  destruct (@pfas_fmg_two_levels Dense.scipy 100 self [[3; 1]%float] 0 1
              Dense.level1 Dense.level2 h' u subs eq_refl E)
    as (Hs & Hh & _).
  exists h', u, subs. split; [exact E|]. split; [exact Hs|]. exact Hh.
Defined.

(** ** The boundary points of [box_obstacle_problem.discretize] *)

Lemma lookup_concat_rows (w : nat) : forall (rows : list (list nat)) (k : nat),
  0 < w ->
  Forall (fun r => length r = w) rows ->
  concat rows !! k = rows !! (k / w) ≫= (fun r => r !! (k mod w)).
Proof.
  induction rows as [|r rows IH]; intros k Hw Hall; simpl.
  - reflexivity.
  - apply Forall_cons in Hall as [Hr Hall].
    destruct (decide (k < w)) as [Hk|Hk].
    + rewrite lookup_app_l by lia.
      rewrite Nat.div_small, Nat.mod_small by assumption. reflexivity.
    + rewrite lookup_app_r by lia. rewrite Hr, IH by assumption.
      assert (Hd : k / w = S ((k - w) / w)).
      { replace k with ((k - w) + 1 * w) at 1 by lia.
        rewrite Nat.div_add by lia. lia. }
      assert (Hm : k mod w = (k - w) mod w).
      { replace k with ((k - w) + 1 * w) at 1 by lia.
        apply Nat.Div0.mod_add. }
      rewrite Hd, Hm. reflexivity.
Qed.

Lemma length_concat_rows (w : nat) : forall rows : list (list nat),
  Forall (fun r => length r = w) rows ->
  length (concat rows) = length rows * w.
Proof.
  induction rows as [|r rows IH]; intros Hall; simpl; [reflexivity|].
  apply Forall_cons in Hall as [Hr Hall].
  rewrite length_app, IH, Hr by assumption. reflexivity.
Qed.

Lemma meshgrid_X_lookup (w h k : nat) :
  k < w * h ->
  box_obstacle_problem.meshgrid_X (seq 0 w) (seq 0 h) !! k = Some (k mod w).
Proof.
  intros Hk. assert (Hw : 0 < w) by nia.
  unfold box_obstacle_problem.meshgrid_X.
  rewrite (lookup_concat_rows w) by
    (try assumption; apply Forall_fmap, Forall_forall; intros; simpl;
     apply length_seq).
  assert (Hq : k / w < h) by (apply Nat.Div0.div_lt_upper_bound; lia).
  rewrite list_lookup_fmap, lookup_seq_lt by assumption. simpl.
  rewrite lookup_seq_lt by (now apply Nat.mod_upper_bound; lia).
  reflexivity.
Qed.

Lemma meshgrid_Y_lookup (w h k : nat) :
  k < w * h ->
  box_obstacle_problem.meshgrid_Y (seq 0 w) (seq 0 h) !! k = Some (k / w).
Proof.
  intros Hk. assert (Hw : 0 < w) by nia.
  unfold box_obstacle_problem.meshgrid_Y.
  rewrite (lookup_concat_rows w) by
    (try assumption; apply Forall_fmap, Forall_forall; intros; simpl;
     rewrite length_map; apply length_seq).
  assert (Hq : k / w < h) by (apply Nat.Div0.div_lt_upper_bound; lia).
  rewrite list_lookup_fmap, lookup_seq_lt by assumption. simpl.
  rewrite list_lookup_fmap.
  rewrite lookup_seq_lt by (now apply Nat.mod_upper_bound; lia).
  reflexivity.
Qed.

Lemma meshgrid_length (w h : nat) :
  length (box_obstacle_problem.meshgrid_X (seq 0 w) (seq 0 h)) = w * h
  /\ length (box_obstacle_problem.meshgrid_Y (seq 0 w) (seq 0 h)) = w * h.
Proof.
  unfold box_obstacle_problem.meshgrid_X, box_obstacle_problem.meshgrid_Y.
  split.
  - rewrite (length_concat_rows w), length_map, length_seq; [lia|].
    apply Forall_fmap, Forall_forall. intros. simpl. apply length_seq.
  - rewrite (length_concat_rows w), length_map, length_seq; [lia|].
    apply Forall_fmap, Forall_forall. intros. simpl.
    rewrite length_map. apply length_seq.
Qed.

Lemma discretize_elem_of (mx my k : nat) :
  k ∈ box_obstacle_problem.discretize mx my
  <-> k < (mx + 2) * (my + 2)
      /\ (k mod (mx + 2) = 0 \/ k / (mx + 2) = my + 1
          \/ k / (mx + 2) = 0 \/ k mod (mx + 2) = mx + 1).
Proof.
  unfold box_obstacle_problem.discretize, np.arange.
  destruct (meshgrid_length (mx + 2) (my + 2)) as [HX HY].
  rewrite elem_of_mask_select_seq, Nat.sub_0_r, HX.
  split.
  - intros [[_ Hk] Hm]. split; [exact Hk|].
    rewrite !lookup_zip_with, !list_lookup_fmap in Hm.
    rewrite meshgrid_X_lookup, meshgrid_Y_lookup in Hm by assumption.
    simpl in Hm. injection Hm as Hm.
    apply orb_true_iff in Hm as [Hm|Hm];
      [apply orb_true_iff in Hm as [Hm|Hm];
       [apply orb_true_iff in Hm as [Hm|Hm]|]|];
      apply Nat.eqb_eq in Hm; auto.
  - intros [Hk Hb]. split; [lia|].
    rewrite !lookup_zip_with, !list_lookup_fmap.
    rewrite meshgrid_X_lookup, meshgrid_Y_lookup by assumption.
    simpl. f_equal.
    destruct Hb as [Hb|[Hb|[Hb|Hb]]]; rewrite Hb;
      rewrite ?Nat.eqb_refl, ?orb_true_r; reflexivity.
Qed.

(** X21.  [box_obstacle_problem.discretize] (lines 55-66 of [obstacle.py]):
    [bndry_pts] holds, in increasing order, exactly the indices
    [k < (mx + 2)·(my + 2)] whose column [k mod (mx + 2)] is [0] or
    [mx + 1], or whose row [k / (mx + 2)] is [0] or [my + 1]. *)
Theorem discretize_spec (mx my : nat) :
  (forall k,
      k ∈ box_obstacle_problem.discretize mx my
      <-> k < (mx + 2) * (my + 2)
          /\ (k mod (mx + 2) = 0 \/ k / (mx + 2) = my + 1
              \/ k / (mx + 2) = 0 \/ k mod (mx + 2) = mx + 1))
  /\ StronglySorted lt (box_obstacle_problem.discretize mx my).
Proof.
  split; [apply discretize_elem_of|].
  unfold box_obstacle_problem.discretize, np.arange.
  apply mask_select_seq_sorted.
Qed.

Lemma index_copy_returns (dst : vec) (idx : list nat) (src : vec) :
  Forall (fun i => i < length dst /\ i < length src) idx ->
  exists v, index_copy dst idx src = Ok v.
Proof.
  intros Hall. unfold index_copy.
  replace (forallb _ idx) with true; [eauto|].
  symmetry. apply forallb_forall. intros i Hi.
  apply list_elem_of_In in Hi.
  rewrite Forall_forall in Hall. destruct (Hall i Hi) as [H1 H2].
  apply andb_true_iff. split; now apply Nat.ltb_lt.
Qed.

Section OnGrid.
Context `{SciPy}.

(** X22.  [discretize] and the zero initial guess fit together: for a
    finest level whose boundary points are those of [discretize] and a
    right-hand side with one entry for each grid point, lines 368-373 raise
    no [IndexError], and the guess is [b] on the boundary of the grid and
    [0.0] inside. *)
Theorem zero_guess_on_grid self lev0 (b : vec) tol :
  PFAS.levels self !! 0 = Some lev0 ->
  bndry_pts lev0 = box_obstacle_problem.discretize (mx lev0) (my lev0) ->
  length b = (mx lev0 + 2) * (my lev0 + 2) ->
  exists v,
    PFAS.initial_guess self b U0None tol = Ok (U0Array v)
    /\ length v = length b
    /\ forall k bk,
         b !! k = Some bk ->
         v !! k
         = Some (if decide (k mod (mx lev0 + 2) = 0
                            \/ k / (mx lev0 + 2) = my lev0 + 1
                            \/ k / (mx lev0 + 2) = 0
                            \/ k mod (mx lev0 + 2) = mx lev0 + 1)
                 then bk else 0%float).
Proof.
  intros Hlev Hb Hlen. unfold PFAS.initial_guess.
  apply getitem_Ok in Hlev. rewrite Hlev. simpl.
  assert (Hne : length (bndry_pts lev0) <> 0).
  { intros E. apply nil_length_inv in E.
    assert (Hin : 0 ∈ bndry_pts lev0).
    { rewrite Hb. apply discretize_elem_of. split; [lia|].
      left. apply Nat.Div0.mod_0_l. }
    rewrite E in Hin. now apply elem_of_nil in Hin. }
  rewrite decide_False by exact Hne.
  destruct (index_copy_returns (np.zeros_like b) (bndry_pts lev0) b)
    as (v & Hv).
  { rewrite Hb. apply Forall_forall. intros k Hk.
    apply discretize_elem_of in Hk as [Hk _].
    unfold np.zeros_like, np.zeros. rewrite length_replicate. lia. }
  rewrite Hv. simpl. exists v. split; [reflexivity|].
  apply index_copy_Ok in Hv as (_ & Hlv & Hlook).
  unfold np.zeros_like, np.zeros in Hlv, Hlook.
  rewrite length_replicate in Hlv. split; [exact Hlv|].
  intros k bk Hk. rewrite Hlook.
  assert (Hkl : k < length b) by (now apply lookup_lt_Some in Hk).
  destruct (decide (k ∈ bndry_pts lev0)) as [Hin|Hout].
  - rewrite Hb in Hin. apply discretize_elem_of in Hin as [_ Hin].
    rewrite decide_True by exact Hin. exact Hk.
  - rewrite decide_False.
    + now apply lookup_replicate_2.
    + intros Hon. apply Hout. rewrite Hb. apply discretize_elem_of.
      split; [lia|exact Hon].
Qed.

End OnGrid.

Lemma zero_guess_on_grid_witness :
  let lev0 := @Level Dense.scipy 1 1 Dense.A0 Dense.R0 Dense.P0
                (box_obstacle_problem.discretize 1 1) in
  let self := @PFAS.Build Dense.scipy [lev0; Dense.level1] Dense.pgs 1 1 0
                Dense.pgs 0.15%float (Some []) [] [] in
  let b := [1; 2; 3; 4; 5; 6; 7; 8; 9]%float in
  exists v,
    PFAS.initial_guess self b U0None 1e-8%float = Ok (U0Array v)
    /\ length v = length b
    /\ forall k bk,
         b !! k = Some bk ->
         v !! k
         = Some (if decide (k mod (1 + 2) = 0 \/ k / (1 + 2) = 1 + 1
                            \/ k / (1 + 2) = 0 \/ k mod (1 + 2) = 1 + 1)
                 then bk else 0%float).
Proof.
  intros lev0 self b.
  apply (@zero_guess_on_grid Dense.scipy self lev0 b 1e-8%float);
    reflexivity.
Defined.

(** ** The hierarchy of [dam_example.main] *)



